(** * Character-level text generation: vocabulary, windows, generators

    A shallow embedding of the cells of the notebooks that carry the
    repository's algorithmic content:

    - part_000 (text representation): the frequency counter feeding the
      vocabulary, and [encode];
    - 5-generative-networks.ipynb: [char_tokenizer], [enc], [get_batch],
      [generate] and [generate_soft].

    Python values are modelled as follows: [int] is [Z]; [str] is [string]
    (a sequence of characters); a list is a [list]; a 1-D [LongTensor] is a
    [list Z] and a 2-D one a list of rows; a raised exception is the
    [Raise] branch of [result]. *)

From Stdlib Require Import ZArith String Ascii.
From stdpp Require Import base list strings gmap.

(** ** Python runtime fragments *)

Module Py.

(** The two exception classes the modelled cells can raise: [IndexError]
    (subscript out of range) and [RuntimeError] (raised by torch). *)
Inductive exn : Type :=
| IndexError
| RuntimeError.

Inductive result (A : Type) : Type :=
| Ok (a : A)
| Raise (e : exn).
Arguments Ok {A} a.
Arguments Raise {A} e.

#[global] Instance result_ret : MRet result := @Ok.
#[global] Instance result_bind : MBind result :=
  λ A B f m, match m with Ok a => f a | Raise e => Raise e end.

(** [for x in xs: st = body(st, x)], stopping at the first exception. *)
Fixpoint for_each {S A : Type} (body : S → A → result S) (st : S) (xs : list A)
  : result S :=
  match xs with
  | [] => Ok st
  | x :: xs' => st' ← body st x; for_each body st' xs'
  end.

(** [len(l)] *)
Definition len {A : Type} (l : list A) : Z := Z.of_nat (length l).

(** A negative subscript counts from the end. *)
Definition norm_index (n i : Z) : Z := if (i <? 0)%Z then (i + n)%Z else i.

(** [l[i]] on a list: [IndexError] outside [-len(l) <= i < len(l)]. *)
Definition getitem {A : Type} (l : list A) (i : Z) : result A :=
  let k := norm_index (len l) i in
  if (k <? 0)%Z then Raise IndexError
  else match l !! Z.to_nat k with
       | Some a => Ok a
       | None => Raise IndexError
       end.

(** Slice bounds are clipped to [0, len], never rejected. *)
Definition adjust_index (n i : Z) : Z :=
  if (i <? 0)%Z then Z.max 0 (i + n) else Z.min i n.

(** [l[i:j]] *)
Definition getslice {A : Type} (l : list A) (i j : Z) : list A :=
  let lo := adjust_index (len l) i in
  let hi := adjust_index (len l) j in
  take (Z.to_nat (hi - lo)) (drop (Z.to_nat lo) l).

(** [range(n)] *)
Definition range (n : Z) : list Z := seqZ 0 n.

(** [len(s)], [s[i:j]], [list(s)] and [''.join(l)] on [str]. *)
Definition str_len (s : string) : Z := len (list_ascii_of_string s).

Definition str_slice (s : string) (i j : Z) : string :=
  string_of_list_ascii (getslice (list_ascii_of_string s) i j).

Definition str_list (s : string) : list string :=
  (λ c, String c EmptyString) <$> list_ascii_of_string s.

Definition str_join (l : list string) : string :=
  foldr String.append EmptyString l.

End Py.
Export Py.

(** ** Vocabulary (part_000, cells 44-45; notebook 5, cell 2) *)

Module Vocabulary.

(** [collections.Counter]: a dict of counts, kept in insertion order
    (the order in which keys were first seen). *)
Definition Counter : Type := list (string * nat).

(** [counter[s] += 1] *)
Fixpoint counter_incr (c : Counter) (s : string) : Counter :=
  match c with
  | [] => [(s, 1)]
  | (k, n) :: c' =>
      if decide (k = s) then (k, S n) :: c' else (k, n) :: counter_incr c' s
  end.

(** [counter.update(tokens)] *)
Definition counter_update (c : Counter) (tokens : list string) : Counter :=
  foldl counter_incr c tokens.

(** [counter = collections.Counter()
     for (label, line) in train_dataset:
         counter.update(tokenizer(line))] *)
Definition tally (tokenizer : string → list string)
    (train_dataset : list (Z * string)) : Counter :=
  foldl (λ counter x, counter_update counter (tokenizer x.2)) [] train_dataset.

(** Modelled from the spec: the vocabulary object ([torchtext.vocab.Vocab],
    whose class is not part of the repository's sources). An id-to-symbol
    list [itos] and a symbol-to-id dict [stoi]. *)
Record Vocab : Type := mkVocab {
  itos : list string;
  stoi : gmap string Z
}.

(** Modelled from the spec: the symbol standing for every
    out-of-vocabulary symbol. *)
Definition unk : string := "<unk>".

(** Modelled from the spec: [vocab.stoi[s]]; a symbol absent from the
    vocabulary maps to the reserved unknown id 0 instead of failing. *)
Definition stoi_get (vocab : Vocab) (s : string) : Z :=
  default 0%Z (stoi vocab !! s).

(** Modelled from the spec: stable ordering by descending frequency. An
    entry is placed before the first entry that is not more frequent, so
    entries of equal frequency keep the order they had in the counter. *)
Fixpoint insert_by_freq (p : string * nat) (l : list (string * nat))
  : list (string * nat) :=
  match l with
  | [] => [p]
  | q :: l' => if (p.2 <? q.2)%nat then q :: insert_by_freq p l' else p :: q :: l'
  end.

Definition sort_by_freq (c : Counter) : list (string * nat) :=
  foldr insert_by_freq [] c.

(** Modelled from the spec: [Vocab(counter)]. Id 0 is reserved for
    [unk] (whose own count, if any, is dropped so that it keeps a single
    id), the counted symbols follow by descending frequency, and [stoi] is
    the inverse of [itos]. *)
Definition Vocab_of_counter (counter : Counter) : Vocab :=
  let symbols :=
    unk :: (sort_by_freq (filter (λ p, p.1 ≠ unk) counter)).*1 in
  mkVocab symbols (list_to_map (imap (λ i s, (s, Z.of_nat i)) symbols)).

(** [vocab = torchtext.vocab.Vocab(counter)] after the tally. *)
Definition build (tokenizer : string → list string)
    (train_dataset : list (Z * string)) : Vocab :=
  Vocab_of_counter (tally tokenizer train_dataset).

(** [vocab_size = len(vocab)] *)
Definition vocab_size (vocab : Vocab) : Z := len (itos vocab).

(** [def encode(x): return [vocab.stoi[s] for s in tokenizer(x)]]
    (part_000), the globals [vocab] and [tokenizer] made parameters.
    Notebook 5 calls the helper of the same name with [voc] and
    [tokenizer] given explicitly. *)
Definition encode (vocab : Vocab) (tokenizer : string → list string)
    (x : string) : list Z :=
  (λ s, stoi_get vocab s) <$> tokenizer x.

(** [vocab.itos[id]] *)
Definition decode (vocab : Vocab) (id : Z) : result string :=
  getitem (itos vocab) id.

(** The vocabulary of the claims about [build]: the symbols of a corpus in
    reading order, how often a symbol occurs, and which of two symbols was
    seen first. *)
Definition corpus_tokens (tokenizer : string → list string)
    (train_dataset : list (Z * string)) : list string :=
  concat ((λ x, tokenizer x.2) <$> train_dataset).

Definition freq (tokens : list string) (s : string) : nat :=
  length (filter (λ t, t = s) tokens).

(** [a] occurs at a position up to which [b] has not occurred. *)
Definition seen_before (tokens : list string) (a b : string) : Prop :=
  ∃ p, tokens !! p = Some a ∧ b ∉ take (S p) tokens.

(** [x] stands somewhere before [y] in the list. *)
Fixpoint before {A : Type} (l : list A) (x y : A) : Prop :=
  match l with
  | [] => False
  | z :: l' => (z = x ∧ y ∈ l') ∨ before l' x y
  end.

End Vocabulary.
Export Vocabulary.

(** ** Training windows (notebook 5, cells 2, 5 and 8) *)

Module Batching.

(** [def char_tokenizer(words): return list(words)] *)
Definition char_tokenizer (words : string) : list string := str_list words.

(** [def enc(x):
       return torch.LongTensor(encode(x,voc=vocab,tokenizer=char_tokenizer))] *)
Definition enc (vocab : Vocab) (x : string) : list Z :=
  encode vocab char_tokenizer x.

(** [enc] applied to a list of characters, as [generate] does:
    [list] of a list is a copy of it. *)
Definition enc_chars (vocab : Vocab) (chars : list string) : list Z :=
  (λ s, stoi_get vocab s) <$> chars.

(** [torch.zeros(rows, cols, dtype=torch.long)]; a negative dimension is
    rejected. *)
Definition zeros (rows cols : Z) : result (list (list Z)) :=
  if ((rows <? 0) || (cols <? 0))%Z then Raise RuntimeError
  else Ok (replicate (Z.to_nat rows) (replicate (Z.to_nat cols) 0%Z)).

(** [t[i] = row]: the row index is checked, then the shapes; a
    one-element row is broadcast over the whole row. *)
Definition setitem (t : list (list Z)) (i : Z) (row : list Z)
  : result (list (list Z)) :=
  let k := norm_index (len t) i in
  if (k <? 0)%Z then Raise IndexError
  else match t !! Z.to_nat k with
       | None => Raise IndexError
       | Some old =>
           if decide (length row = length old)
           then Ok (<[Z.to_nat k := row]> t)
           else match row with
                | [x] => Ok (<[Z.to_nat k := replicate (length old) x]> t)
                | _ => Raise RuntimeError
                end
       end.

(** [def get_batch(s,nchars=nchars):
       ins = torch.zeros(len(s)-nchars,nchars,dtype=torch.long,device=device)
       outs = torch.zeros(len(s)-nchars,nchars,dtype=torch.long,device=device)
       for i in range(len(s)-nchars):
           ins[i] = enc(s[i:i+nchars])
           outs[i] = enc(s[i+1:i+nchars+1])
       return ins,outs] *)
Definition get_batch_body (vocab : Vocab) (s : string) (nchars : Z)
    (st : list (list Z) * list (list Z)) (i : Z)
  : result (list (list Z) * list (list Z)) :=
  ins ← setitem st.1 i (enc vocab (str_slice s i (i + nchars)));
  outs ← setitem st.2 i (enc vocab (str_slice s (i + 1) (i + nchars + 1)));
  Ok (ins, outs).

Definition get_batch (vocab : Vocab) (s : string) (nchars : Z)
  : result (list (list Z) * list (list Z)) :=
  ins ← zeros (str_len s - nchars) nchars;
  outs ← zeros (str_len s - nchars) nchars;
  for_each (get_batch_body vocab s nchars) (ins, outs)
           (range (str_len s - nchars)).

End Batching.
Export Batching.

(** ** Generators (notebook 5, cells 13 and 15) *)

Module Generation.
Section Generators.

(** The numeric type of the tensors' entries, and the model's hidden
    state. [score_ltb] is the strict order [torch.argmax] ranks the
    entries by: [<] on numbers, and NaN above every number. *)
Context {score state : Type}.
Variable score_ltb : score → score → bool.

(** [net(x, s)]: the logits of every position ([out[0]], the batch
    holding one sequence) and the new state. *)
Variable net : list Z → option state → result (list (list score) * state).

Variable vocab : Vocab.

(** [t.view(1,-1)] on a 1-D tensor: one row holding all the entries. It
    succeeds on an empty tensor too, the row then being empty. *)
Definition view (t : list Z) : result (list Z) := Ok t.

(** [torch.argmax(v)] on a 1-D tensor: the index of the first maximal
    value; an empty tensor is rejected. *)
Fixpoint argmax_from (best_i : nat) (best : score) (i : nat) (v : list score)
  : nat :=
  match v with
  | [] => best_i
  | x :: v' =>
      if score_ltb best x then argmax_from i x (S i) v'
      else argmax_from best_i best (S i) v'
  end.

Definition argmax (v : list score) : result Z :=
  match v with
  | [] => Raise RuntimeError
  | x :: v' => Ok (Z.of_nat (argmax_from 0 x 1 v'))
  end.

(** What the scan of [argmax] maintains: [best], at index [bi], is the
    first maximum of the part read so far. *)
Definition first_max (v : list score) (bi : nat) (best : score) : Prop :=
  v !! bi = Some best ∧
  (∀ j w, v !! j = Some w → score_ltb best w = false) ∧
  (∀ j w, j < bi → v !! j = Some w → score_ltb w best = true).

(** The loop variables [chars], [out], [s]. *)
Definition gen_state : Type := list string * list (list score) * state.

(** The body of the loop of [generate]. *)
Definition generate_body (st : gen_state) (i : Z) : result gen_state :=
  let '(chars, out, s) := st in
  logits ← getitem out (-1);
  nc ← argmax logits;
  c ← getitem (itos vocab) nc;
  r ← net [nc] (Some s);
  Ok (chars ++ [c], r.1, r.2).

(** [def generate(net,size=100,start='today '):
        chars = list(start)
        out, s = net(enc(chars).view(1,-1).to(device))
        for i in range(size):
            nc = torch.argmax(out[0][-1])
            chars.append(vocab.itos[nc])
            out, s = net(nc.view(1,-1),s)
        return ''.join(chars)] *)
Definition generate (size : Z) (start : string) : result string :=
  let chars := str_list start in
  x ← view (enc_chars vocab chars);
  r ← net x None;
  st ← for_each generate_body (chars, r.1, r.2) (range size);
  Ok (str_join st.1.1).

(** Soft generation: the numeric operations of the scaling step and the
    sampler, which draws from the global random state [rng]. *)
Context {rng : Type}.
Variable fdiv : score → score → score.
Variable fexp : score → score.
Variable multinomial : list score → rng → result (Z * rng).

(** The body of the loop of [generate_soft]. *)
Definition generate_soft_body (temperature : score)
    (st : gen_state * rng) (i : Z) : result (gen_state * rng) :=
  let '(chars, out, s, g) := st in
  logits ← getitem out (-1);
  let out_dist := (λ x, fexp (fdiv x temperature)) <$> logits in
  d ← multinomial out_dist g;
  c ← getitem (itos vocab) d.1;
  r ← net [d.1] (Some s);
  Ok (chars ++ [c], r.1, r.2, d.2).

(** [def generate_soft(net,size=100,start='today ',temperature=1.0):
        chars = list(start)
        out, s = net(enc(chars).view(1,-1).to(device))
        for i in range(size):
            out_dist = out[0][-1].div(temperature).exp()
            nc = torch.multinomial(out_dist,1)[0]
            chars.append(vocab.itos[nc])
            out, s = net(nc.view(1,-1),s)
        return ''.join(chars)]
    The random state is threaded through and returned with the text. *)
Definition generate_soft (size : Z) (start : string) (temperature : score)
    (g : rng) : result (string * rng) :=
  let chars := str_list start in
  x ← view (enc_chars vocab chars);
  r ← net x None;
  st ← for_each (generate_soft_body temperature) (chars, r.1, r.2, g)
                (range size);
  Ok (str_join st.1.1.1, st.2).

(** The greedy algorithm in the specification's words: at every step
    the id with the maximal logit is picked, the lowest id among equal
    maxima; it is decoded, appended, and fed back with the state. *)
Definition greedy_choice (logits : list score) (nc : Z) : Prop :=
  (0 ≤ nc)%Z ∧
  ∃ v, logits !! Z.to_nat nc = Some v ∧
       (∀ j w, logits !! j = Some w → score_ltb v w = false) ∧
       (∀ j w, (j < Z.to_nat nc)%nat → logits !! j = Some w →
               score_ltb w v = true).

Inductive greedy_run : nat → list (list score) → state → list string → Prop :=
| greedy_done out s :
    greedy_run 0 out s []
| greedy_step n out s logits nc c out' s' cs :
    last out = Some logits →
    greedy_choice logits nc →
    itos vocab !! Z.to_nat nc = Some c →
    net [nc] (Some s) = Ok (out', s') →
    greedy_run n out' s' cs →
    greedy_run (S n) out s (c :: cs).

(** A model that answers every non-empty input, with one logits vector
    per position, each holding at least one score and no more scores than
    the vocabulary has symbols. *)
Definition model_ok : Prop :=
  ∀ (x : list Z) (s : option state), x ≠ [] →
    ∃ out s', net x s = Ok (out, s') ∧ length out = length x ∧
              Forall (λ l, 0 < length l ≤ length (itos vocab)) out.

End Generators.
End Generation.
Export Generation.

(** ** Concrete inputs used by the examples *)

Module Examples.

(** The vocabulary [{<unk>:0, a:1, b:2, ' ':3}]. *)
Definition abc_vocab : Vocab :=
  mkVocab ["<unk>"; "a"; "b"; " "]
          (list_to_map [("<unk>", 0%Z); ("a", 1%Z); ("b", 2%Z); (" ", 3%Z)]).

(** A model over integer scores that gives id 2 the highest logit at
    every position, whatever its input and state. *)
Definition b_net (x : list Z) (s : option unit)
  : result (list (list Z) * unit) :=
  Ok ((λ _, [0; 0; 1; 0]%Z) <$> x, tt).

(** A sampler that always draws id 0 and leaves the random state alone.
    With it, [Z.div] and [Z.succ] stand for the division and the
    exponential in examples that run no sampling step. *)
Definition first_sampler (w : list Z) (g : unit) : result (Z * unit) :=
  Ok (0%Z, g).

(** A two-line corpus, labels included as in the dataset. *)
Definition tiny_corpus : list (Z * string) := [(3%Z, "abba"); (1%Z, "cab")].

End Examples.

(** ** Bag of words (part_000, cells 47 and 48) *)

Module BagOfWords.
Section Bow.

(** The entries of the float tensor: the value [0.] and adding [1]. *)
Context {num : Type}.
Variable zero : num.
Variable add_one : num → num.

Variable vocab : Vocab.
Variable tokenizer : string → list string.

(** [torch.zeros(n, dtype=torch.float32)] *)
Definition zeros1 (n : Z) : result (list num) :=
  if (n <? 0)%Z then Raise RuntimeError
  else Ok (replicate (Z.to_nat n) zero).

(** [res[i] += 1] on a 1-D tensor; the subscript is checked as on a list. *)
Definition incr (res : list num) (i : Z) : result (list num) :=
  let k := norm_index (len res) i in
  if (k <? 0)%Z then Raise IndexError
  else match res !! Z.to_nat k with
       | Some v => Ok (<[Z.to_nat k := add_one v]> res)
       | None => Raise IndexError
       end.

(** [def to_bow(text,bow_vocab_size=vocab_size):
        res = torch.zeros(bow_vocab_size,dtype=torch.float32)
        for i in encode(text):
            if i<bow_vocab_size:
                res[i] += 1
        return res] *)
Definition to_bow_body (bow_vocab_size : Z) (res : list num) (i : Z)
  : result (list num) :=
  if (i <? bow_vocab_size)%Z then incr res i else Ok res.

Definition to_bow (text : string) (bow_vocab_size : Z) : result (list num) :=
  res ← zeros1 bow_vocab_size;
  for_each (to_bow_body bow_vocab_size) res (encode vocab tokenizer text).

(** [[f(t) for t in l]], stopping at the first exception. *)
Fixpoint map_each {A B : Type} (f : A → result B) (l : list A)
  : result (list B) :=
  match l with
  | [] => Ok []
  | x :: l' => y ← f x; ys ← map_each f l'; Ok (y :: ys)
  end.

(** [torch.stack(rows)] on 1-D tensors: the list must not be empty and
    the rows must have one size. *)
Definition stack {A : Type} (rows : list (list A)) : result (list (list A)) :=
  match rows with
  | [] => Raise RuntimeError
  | r :: rest =>
      if forallb (λ r', length r' =? length r) rest then Ok rows
      else Raise RuntimeError
  end.

(** What a signed 64-bit integer holds. *)
Definition int64 (n : Z) : bool := ((- 2 ^ 63 <=? n) && (n <? 2 ^ 63))%Z.

(** [torch.LongTensor(l)] on a list of Python integers: an integer that
    does not fit 64 bits overflows when it is unpacked. *)
Definition LongTensor (l : list Z) : result (list Z) :=
  if forallb int64 l then Ok l else Raise RuntimeError.

(** [def bowify(b):
        return (
                torch.LongTensor([t[0]-1 for t in b]),
                torch.stack([to_bow(t[1]) for t in b])
        )]
    [to_bow] runs with its default size, [vocab_size = len(vocab)]. *)
Definition bowify (b : list (Z * string)) : result (list Z * list (list num)) :=
  labels ← LongTensor ((λ t, t.1 - 1)%Z <$> b);
  rows ← map_each (λ t, to_bow t.2 (vocab_size vocab)) b;
  features ← stack rows;
  Ok (labels, features).

End Bow.
End BagOfWords.
Export BagOfWords.

(** ** Padded minibatches (notebook 4, cell 11) *)

Module Padding.






End Padding.
Export Padding.

(** ** The training loop of the generator (notebook 5, cell 14) *)

Module Training.
Section Loop.

(** The state the loop updates (the network, the optimizer) and what one
    iteration does with a minibatch once [get_batch] has built it:
    [optimizer.zero_grad() ... optimizer.step()] and the report printed
    when [i%1000==0]. *)
Context {model : Type}.
Variable vocab : Vocab.
Variable step : Z → model → list (list Z) * list (list Z) → result model.

(** [enumerate(l)] *)
Definition enumerate {A : Type} (l : list A) : list (Z * A) :=
  imap (λ i x, (Z.of_nat i, x)) l.

(** [for i,x in enumerate(train_dataset):
        if len(x[1])-nchars<10:
            continue
        samples_to_train-=1
        if not samples_to_train: break
        text_in, text_out = get_batch(x[1])
        ...] *)
Fixpoint train_from (nchars : Z) (items : list (Z * (Z * string)))
    (samples_to_train : Z) (st : model) : result model :=
  match items with
  | [] => Ok st
  | (i, x) :: items' =>
      if (str_len x.2 - nchars <? 10)%Z
      then train_from nchars items' samples_to_train st
      else
        let samples_to_train := (samples_to_train - 1)%Z in
        if (samples_to_train =? 0)%Z then Ok st
        else
          batch ← get_batch vocab x.2 nchars;
          st' ← step i st batch;
          train_from nchars items' samples_to_train st'
  end.

Definition train (nchars : Z) (train_dataset : list (Z * string))
    (samples_to_train : Z) (st : model) : result model :=
  train_from nchars (enumerate train_dataset) samples_to_train st.

End Loop.
End Training.
Export Training.

(** * Properties *)

(** ** Runtime lemmas *)

Section RuntimeFacts.
Context {A B : Type}.
Implicit Types (l : list A) (f : A → B).

Lemma len_fmap f l : len (f <$> l) = len l.
Proof. unfold len. by rewrite length_fmap. Qed.

Lemma getslice_fmap f l i j : getslice (f <$> l) i j = f <$> getslice l i j.
Proof.
  unfold getslice. rewrite len_fmap.
  by rewrite fmap_take, fmap_drop.
Qed.

(** A slice inside the bounds is the plain [take]/[drop]. *)
Lemma getslice_inside l i j :
  (0 ≤ i)%Z → (i ≤ j)%Z → (j ≤ len l)%Z →
  getslice l i j = take (Z.to_nat (j - i)) (drop (Z.to_nat i) l).
Proof.
  intros Hi Hij Hj. unfold getslice, adjust_index.
  destruct (Z.ltb_spec i 0); [lia|].
  destruct (Z.ltb_spec j 0); [lia|].
  by rewrite !Z.min_l by lia.
Qed.

Lemma getslice_length l i j :
  (0 ≤ i)%Z → (i ≤ j)%Z → (j ≤ len l)%Z →
  length (getslice l i j) = Z.to_nat (j - i).
Proof.
  intros Hi Hij Hj. rewrite getslice_inside by done.
  rewrite length_take, length_drop. unfold len in Hj. lia.
Qed.

Lemma getslice_lookup l i j (k : nat) :
  (0 ≤ i)%Z → (i ≤ j)%Z → (j ≤ len l)%Z → (Z.of_nat k < j - i)%Z →
  getslice l i j !! k = l !! (Z.to_nat i + k)%nat.
Proof.
  intros Hi Hij Hj Hk. rewrite getslice_inside by done.
  rewrite lookup_take_lt by lia. by rewrite lookup_drop.
Qed.

Lemma getitem_Ok l (i : Z) a :
  getitem l i = Ok a ↔
  ((0 ≤ i)%Z ∧ l !! Z.to_nat i = Some a) ∨
  ((- len l ≤ i < 0)%Z ∧ l !! Z.to_nat (i + len l) = Some a).
Proof.
  unfold getitem, norm_index.
  destruct (Z.ltb_spec i 0) as [Hneg|Hpos].
  - destruct (Z.ltb_spec (i + len l) 0) as [Hlow|Hin].
    + split; [done|]. intros [[? _]|[? _]]; lia.
    + destruct (l !! Z.to_nat (i + len l)) as [b|] eqn:Hl.
      * split.
        -- intros [= ->]. right. split; [lia|done].
        -- intros [[? _]|[_ [= ->]]]; [lia|done].
      * split; [done|]. intros [[? _]|[_ ?]]; [lia|done].
  - destruct (Z.ltb_spec i 0); [lia|].
    destruct (l !! Z.to_nat i) as [b|] eqn:Hl.
    + split.
      * intros [= ->]. left. done.
      * intros [[_ [= ->]]|[? _]]; [done|lia].
    + split; [done|]. intros [[_ ?]|[? _]]; [done|lia].
Qed.

Lemma getitem_Raise l (i : Z) e :
  getitem l i = Raise e ↔ e = IndexError ∧ (i < - len l ∨ len l ≤ i)%Z.
Proof.
  unfold getitem, norm_index.
  destruct (Z.ltb_spec i 0) as [Hneg|Hpos].
  - destruct (Z.ltb_spec (i + len l) 0) as [Hlow|Hin].
    + split; [intros [= <-]; split; [done|lia] | by intros [-> _]].
    + destruct (l !! Z.to_nat (i + len l)) as [b|] eqn:Hl.
      * split; [done|]. intros [_ ?]. lia.
      * apply lookup_ge_None in Hl. unfold len in *. lia.
  - destruct (Z.ltb_spec i 0); [lia|].
    destruct (l !! Z.to_nat i) as [b|] eqn:Hl.
    + apply lookup_lt_Some in Hl. unfold len.
      split; [done|]. intros [_ ?]. lia.
    + apply lookup_ge_None in Hl. unfold len.
      split; [intros [= <-]; split; [done|lia] | by intros [-> _]].
Qed.

(** A non-negative subscript inside the list reads that position. *)
Lemma getitem_nat l (k : nat) a :
  l !! k = Some a → getitem l (Z.of_nat k) = Ok a.
Proof.
  intros Hl. apply getitem_Ok. left. split; [lia|].
  by rewrite Nat2Z.id.
Qed.

Lemma getitem_last l a : last l = Some a → getitem l (-1) = Ok a.
Proof.
  intros Hl. apply getitem_Ok. right.
  rewrite last_lookup in Hl.
  assert (Hlt := lookup_lt_Some _ _ _ Hl).
  split; [unfold len; lia|].
  by replace (Z.to_nat (-1 + len l)) with (Nat.pred (length l))
    by (unfold len; lia).
Qed.

Lemma getitem_last_inv l a : getitem l (-1) = Ok a → last l = Some a.
Proof.
  intros [[? _]|[Hr Hl]]%getitem_Ok; [lia|].
  rewrite last_lookup.
  by replace (Nat.pred (length l)) with (Z.to_nat (-1 + len l))
    by (unfold len; lia).
Qed.

End RuntimeFacts.

Lemma list_ascii_roundtrip (l : list ascii) :
  list_ascii_of_string (string_of_list_ascii l) = l.
Proof. apply list_ascii_of_string_of_list_ascii. Qed.

Lemma str_join_list (s : string) : str_join (str_list s) = s.
Proof.
  unfold str_join, str_list.
  induction s as [|c s IH]; simpl; [done|]. by f_equal.
Qed.

Lemma append_String (a : ascii) (s t : string) :
  String a s +:+ t = String a (s +:+ t).
Proof. reflexivity. Qed.

Lemma append_assoc (s t u : string) : s +:+ t +:+ u = (s +:+ t) +:+ u.
Proof.
  induction s as [|a s IH]; [done|].
  rewrite !append_String. by f_equal.
Qed.

Lemma str_join_app (l1 l2 : list string) :
  str_join (l1 ++ l2) = str_join l1 +:+ str_join l2.
Proof.
  unfold str_join. induction l1 as [|c l1 IH]; simpl; [done|].
  by rewrite IH, append_assoc.
Qed.

Lemma str_list_length (s : string) : len (str_list s) = str_len s.
Proof. unfold str_list, str_len. apply len_fmap. Qed.

Lemma str_list_slice (s : string) (i j : Z) :
  str_list (str_slice s i j) = getslice (str_list s) i j.
Proof.
  unfold str_list, str_slice.
  by rewrite list_ascii_roundtrip, getslice_fmap.
Qed.

(** ** Encoding and decoding *)

Section Codec.
Variable vocab : Vocab.

Lemma enc_as_chars (x : string) : enc vocab x = enc_chars vocab (str_list x).
Proof. reflexivity. Qed.

Lemma enc_length (x : string) : len (enc vocab x) = str_len x.
Proof.
  unfold enc, encode, char_tokenizer.
  by rewrite len_fmap, str_list_length.
Qed.

(** Encoding a slice is slicing the encoding, for all bounds. *)
Lemma enc_getslice (s : string) (i j : Z) :
  enc vocab (str_slice s i j) = getslice (enc vocab s) i j.
Proof.
  unfold enc, encode, char_tokenizer.
  by rewrite str_list_slice, getslice_fmap.
Qed.

Lemma decode_Ok (id : Z) (s : string) :
  (0 ≤ id)%Z → itos vocab !! Z.to_nat id = Some s → decode vocab id = Ok s.
Proof. intros Hid Hs. apply getitem_Ok. by left. Qed.

End Codec.

(** C5, as the code has it: [decode] ([vocab.itos[id]]) fails, with
    [IndexError] and nothing else, exactly when [id < -vocab_size] or
    [id >= vocab_size]; for [0 <= id < vocab_size] it returns the symbol
    stored at [id]; an id in [[-vocab_size, 0)] is not rejected but read
    from the end of [itos], as the id [id + vocab_size]. *)
Theorem decode_fails_outside_both_ranges (vocab : Vocab) (id : Z) :
  ((∃ e, decode vocab id = Raise e) ↔
     (id < - vocab_size vocab ∨ vocab_size vocab ≤ id)%Z) ∧
  (∀ e, decode vocab id = Raise e → e = IndexError) ∧
  ((0 ≤ id < vocab_size vocab)%Z →
     ∃ s, itos vocab !! Z.to_nat id = Some s ∧ decode vocab id = Ok s) ∧
  ((- vocab_size vocab ≤ id < 0)%Z →
     ∃ s, itos vocab !! Z.to_nat (id + vocab_size vocab) = Some s ∧
          decode vocab id = Ok s ∧
          decode vocab (id + vocab_size vocab) = Ok s).
Proof.
  unfold decode, vocab_size. repeat split.
  - intros [e He]. by apply getitem_Raise in He as [_ ?].
  - intros Hout. exists IndexError. by apply getitem_Raise.
  - intros e He. by apply getitem_Raise in He as [? _].
  - intros [Hlo Hhi].
    destruct (lookup_lt_is_Some_2 (itos vocab) (Z.to_nat id)) as [s Hs].
    { unfold len in Hhi. lia. }
    exists s. split; [done|]. apply getitem_Ok. by left.
  - intros [Hlo Hhi].
    destruct (lookup_lt_is_Some_2 (itos vocab)
                (Z.to_nat (id + len (itos vocab)))) as [s Hs].
    { unfold len in *. lia. }
    exists s. split; [done|]. split.
    + apply getitem_Ok. by right.
    + apply getitem_Ok. left. split; [lia|done].
Qed.

Lemma decode_fails_outside_both_ranges_witness :
  (0 ≤ 2 < vocab_size Examples.abc_vocab)%Z ∧
  ∃ s, itos Examples.abc_vocab !! Z.to_nat 2 = Some s ∧
       decode Examples.abc_vocab 2 = Ok s.
Proof.
  assert (Hin : (0 ≤ 2 < vocab_size Examples.abc_vocab)%Z)
    by (vm_compute; split; [discriminate|reflexivity]).
  split; [exact Hin|].
  destruct (decode_fails_outside_both_ranges Examples.abc_vocab 2)
    as (_ & _ & Hinside & _).
  exact (Hinside Hin).
Defined.

(** C5, the input at which the claim as stated fails: the id -1 lies
    outside [[0, vocab_size)], yet [decode] returns the last symbol. *)
Lemma decode_minus_one_not_rejected :
  vocab_size Examples.abc_vocab = 4%Z ∧
  decode Examples.abc_vocab (-1) = Ok " ".
Proof. split; reflexivity. Qed.

(** C6: [encode] is total; its result has one id per symbol of the
    tokenized string, in the same order; a symbol present in [stoi] is
    mapped to its id and an absent one to the unknown id 0. *)
Theorem encode_total_unknown_to_zero (vocab : Vocab)
    (tokenizer : string → list string) (x : string) :
  length (encode vocab tokenizer x) = length (tokenizer x) ∧
  ∀ (i : nat) (s : string), tokenizer x !! i = Some s →
    ∃ id, encode vocab tokenizer x !! i = Some id ∧
          (stoi vocab !! s = Some id ∨ (stoi vocab !! s = None ∧ id = 0%Z)).
Proof.
  unfold encode. split; [by rewrite length_fmap|].
  intros i s Hs. rewrite list_lookup_fmap, Hs. simpl.
  unfold stoi_get. destruct (stoi vocab !! s) as [id|]; simpl; eauto.
Qed.

Lemma encode_total_unknown_to_zero_witness :
  char_tokenizer "az" !! 1 = Some "z" ∧
  ∃ id, encode Examples.abc_vocab char_tokenizer "az" !! 1 = Some id ∧
        (stoi Examples.abc_vocab !! "z" = Some id ∨
         (stoi Examples.abc_vocab !! "z" = None ∧ id = 0%Z)).
Proof.
  split; [reflexivity|].
  destruct (encode_total_unknown_to_zero Examples.abc_vocab char_tokenizer "az")
    as [_ Hsym].
  apply Hsym. reflexivity.
Defined.


(** ** Training windows *)

Section Windows.
Variable vocab : Vocab.
Variable s : string.
Variable nchars : Z.

(** The rows the loop of [get_batch] writes at index [i]. *)
Local Abbreviation row_in i := (enc vocab (str_slice s i (i + nchars))).
Local Abbreviation row_out i := (enc vocab (str_slice s (i + 1) (i + nchars + 1))).
Local Abbreviation blank := (replicate (Z.to_nat nchars) 0%Z).

Lemma zeros_Ok (rows cols : Z) :
  (0 ≤ rows)%Z → (0 ≤ cols)%Z →
  zeros rows cols = Ok (replicate (Z.to_nat rows) (replicate (Z.to_nat cols) 0%Z)).
Proof.
  intros Hr Hc. unfold zeros.
  destruct (Z.ltb_spec rows 0); [lia|].
  destruct (Z.ltb_spec cols 0); [lia|]. done.
Qed.

Lemma zeros_Raise (rows cols : Z) :
  (rows < 0 ∨ cols < 0)%Z → zeros rows cols = Raise RuntimeError.
Proof.
  intros Hneg. unfold zeros.
  destruct (Z.ltb_spec rows 0); [done|].
  destruct (Z.ltb_spec cols 0); [done|lia].
Qed.

(** Writing a row of the right length at the first row not yet written. *)
Lemma setitem_next (done_rows rest : list (list Z)) (old row : list Z) (i : Z) :
  (0 ≤ i)%Z → length done_rows = Z.to_nat i → length row = length old →
  setitem (done_rows ++ old :: rest) i row = Ok (done_rows ++ row :: rest).
Proof.
  intros Hi Hlen Hrow. unfold setitem, norm_index.
  destruct (Z.ltb_spec i 0); [lia|].
  destruct (Z.ltb_spec i 0); [lia|].
  rewrite <- Hlen, list_lookup_middle by done.
  destruct (decide (length row = length old)); [|done].
  f_equal. replace (length done_rows) with (length done_rows + 0)%nat by lia.
  by rewrite insert_app_r.
Qed.

Lemma row_in_length (i : Z) :
  (0 ≤ nchars)%Z → (0 ≤ i)%Z → (i + nchars ≤ str_len s)%Z →
  length (row_in i) = Z.to_nat nchars.
Proof.
  intros Hw Hi Hhi. rewrite enc_getslice.
  rewrite getslice_length by (rewrite ?enc_length; lia).
  f_equal. lia.
Qed.

Lemma row_out_length (i : Z) :
  (0 ≤ nchars)%Z → (0 ≤ i)%Z → (i + nchars + 1 ≤ str_len s)%Z →
  length (row_out i) = Z.to_nat nchars.
Proof.
  intros Hw Hi Hhi. rewrite enc_getslice.
  rewrite getslice_length by (rewrite ?enc_length; lia).
  f_equal. lia.
Qed.

(** One iteration writes row [k] of both tensors. *)
Lemma get_batch_body_next (k : Z) (ins outs rest_in rest_out : list (list Z)) :
  (0 ≤ nchars)%Z → (0 ≤ k)%Z → (k + nchars + 1 ≤ str_len s)%Z →
  length ins = Z.to_nat k → length outs = Z.to_nat k →
  get_batch_body vocab s nchars
    (ins ++ blank :: rest_in, outs ++ blank :: rest_out) k
  = Ok (ins ++ row_in k :: rest_in, outs ++ row_out k :: rest_out).
Proof.
  intros Hw Hk Hfit Hins Houts. unfold get_batch_body. cbn [fst snd].
  rewrite (setitem_next ins rest_in blank (row_in k) k); [|done|done|];
    last (rewrite row_in_length, length_replicate by lia; done).
  rewrite (setitem_next outs rest_out blank (row_out k) k); [|done|done|];
    last (rewrite row_out_length, length_replicate by lia; done).
  done.
Qed.

(** The loop invariant: after the rows before [k] have been written, the
    [m] remaining iterations fill the [m] blank rows that are left. *)
Lemma get_batch_loop (m : nat) :
  ∀ (k : Z) (ins outs : list (list Z)),
    (0 ≤ nchars)%Z → (0 ≤ k)%Z → (k + Z.of_nat m + nchars ≤ str_len s)%Z →
    length ins = Z.to_nat k → length outs = Z.to_nat k →
    for_each (get_batch_body vocab s nchars)
             (ins ++ replicate m blank, outs ++ replicate m blank)
             (seqZ k (Z.of_nat m))
    = Ok (ins ++ ((λ i, row_in i) <$> seqZ k (Z.of_nat m)),
          outs ++ ((λ i, row_out i) <$> seqZ k (Z.of_nat m))).
Proof.
  induction m as [|m IH]; intros k ins outs Hw Hk Hfit Hins Houts.
  - simpl. by rewrite !app_nil_r.
  - rewrite seqZ_cons by lia.
    replace (Z.pred (Z.of_nat (S m))) with (Z.of_nat m) by lia.
    cbn [for_each replicate fmap list_fmap].
    rewrite get_batch_body_next by (done || lia).
    cbn [mbind result_bind].
    rewrite (cons_middle (row_in k)), (cons_middle (row_out k)), !app_assoc.
    rewrite IH; [|done|lia|lia|..];
      [|rewrite length_app; simpl; lia|rewrite length_app; simpl; lia].
    by rewrite <- !app_assoc.
Qed.

Lemma get_batch_Ok :
  (0 ≤ nchars)%Z → (nchars ≤ str_len s)%Z →
  get_batch vocab s nchars
  = Ok ((λ i, row_in i) <$> range (str_len s - nchars),
        (λ i, row_out i) <$> range (str_len s - nchars)).
Proof.
  intros Hw HL. unfold get_batch, range.
  rewrite zeros_Ok by lia. cbn [mbind result_bind].
  pose proof (get_batch_loop (Z.to_nat (str_len s - nchars)) 0 [] []) as Hloop.
  rewrite Z2Nat.id in Hloop by lia.
  apply Hloop; [done|done|lia|done|done].
Qed.

Lemma get_batch_Raise :
  (nchars < 0 ∨ str_len s < nchars)%Z →
  get_batch vocab s nchars = Raise RuntimeError.
Proof.
  intros Hbad. unfold get_batch.
  by rewrite zeros_Raise by lia.
Qed.

Lemma range_lookup (n : Z) (k : nat) :
  (Z.of_nat k < n)%Z → range n !! k = Some (Z.of_nat k).
Proof.
  intros Hk. unfold range. by rewrite lookup_seqZ_lt by done.
Qed.

Lemma range_length (n : Z) : length (range n) = Z.to_nat n.
Proof. apply length_seqZ. Qed.

End Windows.

(** C1, as the code has it: for a source of [L] characters and a window
    size [w] with [0 <= w <= L], [get_batch] returns exactly [L - w] windows
    (none, without error, when [L = w]), ordered by start position: window
    [k] has input [enc(s)[k : k+w]] and target [enc(s)[k+1 : k+w+1]], so
    [target[k][i] = input[k][i+1]] for [i < w-1], and window [k+1] repeats
    the last [w-1] positions of window [k]. A source shorter than [w] is
    rejected: the tensor with a negative number of rows is not allocated. *)
Theorem get_batch_windows (vocab : Vocab) (s : string) (w : Z) :
  ((0 ≤ w ≤ str_len s)%Z →
     ∃ ins outs,
       get_batch vocab s w = Ok (ins, outs) ∧
       len ins = (str_len s - w)%Z ∧ len outs = (str_len s - w)%Z ∧
       ∀ k : nat, (Z.of_nat k < str_len s - w)%Z →
         ∃ inp tgt,
           ins !! k = Some inp ∧ outs !! k = Some tgt ∧
           inp = getslice (enc vocab s) (Z.of_nat k) (Z.of_nat k + w) ∧
           tgt = getslice (enc vocab s) (Z.of_nat k + 1) (Z.of_nat k + w + 1) ∧
           len inp = w ∧ len tgt = w ∧
           (∀ i : nat, (Z.of_nat i + 1 < w)%Z → tgt !! i = inp !! S i) ∧
           (∀ nxt, ins !! S k = Some nxt →
                   ∀ i : nat, (Z.of_nat i + 1 < w)%Z → nxt !! i = inp !! S i)) ∧
  ((w < 0 ∨ str_len s < w)%Z → get_batch vocab s w = Raise RuntimeError).
Proof.
  split; [|apply get_batch_Raise].
  intros [Hw HL]. eexists _, _. split; [by apply get_batch_Ok|].
  unfold len. rewrite !length_fmap, !range_length.
  split; [lia|]. split; [lia|].
  intros k Hk. eexists _, _.
  rewrite !list_lookup_fmap, !range_lookup by done. simpl.
  split; [done|]. split; [done|].
  rewrite !enc_getslice.
  split; [done|]. split; [done|].
  pose proof (enc_length vocab s) as He.
  assert (Hshift : ∀ i : nat, (Z.of_nat i + 1 < w)%Z →
    getslice (enc vocab s) (Z.of_nat k + 1) (Z.of_nat k + w + 1) !! i
    = getslice (enc vocab s) (Z.of_nat k) (Z.of_nat k + w) !! S i).
  { intros i Hi. rewrite !getslice_lookup by lia. f_equal. lia. }
  split; [rewrite getslice_length by lia; lia|].
  split; [rewrite getslice_length by lia; lia|].
  split; [done|].
  intros nxt Hnxt i Hi.
  destruct (range (str_len s - w) !! S k) as [k'|] eqn:Hk'; [|done].
  assert (HSk : (Z.of_nat (S k) < str_len s - w)%Z).
  { apply lookup_lt_Some in Hk'. rewrite range_length in Hk'. lia. }
  rewrite range_lookup in Hk' by done.
  injection Hk' as <-. injection Hnxt as <-.
  rewrite enc_getslice, !getslice_lookup by lia. f_equal. lia.
Qed.

Lemma get_batch_windows_witness :
  (0 ≤ 2 ≤ str_len "abcd")%Z ∧
  ∃ ins outs,
    get_batch Examples.abc_vocab "abcd" 2 = Ok (ins, outs) ∧
    len ins = 2%Z ∧ len outs = 2%Z.
Proof.
  assert (Hfit : (0 ≤ 2 ≤ str_len "abcd")%Z) by (vm_compute; split; discriminate).
  split; [exact Hfit|].
  destruct (proj1 (get_batch_windows Examples.abc_vocab "abcd" 2) Hfit)
    as (ins & outs & Hb & Hin & Hout & _).
  exists ins, outs. split; [exact Hb|]. split; [exact Hin|exact Hout].
Defined.

(** C1, the input at which the claim as stated fails: a source of one
    character with windows of two yields no empty result but an error. *)
Lemma get_batch_short_source_rejected :
  str_len "a" = 1%Z ∧
  get_batch Examples.abc_vocab "a" 2 = Raise RuntimeError.
Proof. split; reflexivity. Qed.

(** C10: the character tokenizer emits one symbol per character, hence
    encoding commutes with slicing, [enc(s[i:j]) = enc(s)[i:j]] for
    [0 <= i <= j <= len(s)], and every row [get_batch] builds by
    re-encoding a substring is the window of the encoded full text. *)
Theorem enc_commutes_with_slicing (vocab : Vocab) (s : string) :
  len (char_tokenizer s) = str_len s ∧
  (∀ i j : Z, (0 ≤ i)%Z → (i ≤ j)%Z → (j ≤ str_len s)%Z →
     enc vocab (str_slice s i j) = getslice (enc vocab s) i j ∧
     len (getslice (enc vocab s) i j) = (j - i)%Z) ∧
  (∀ (nchars : Z) (ins outs : list (list Z)),
     get_batch vocab s nchars = Ok (ins, outs) →
     ∀ k : nat, (Z.of_nat k < str_len s - nchars)%Z →
       ins !! k
       = Some (getslice (enc vocab s) (Z.of_nat k) (Z.of_nat k + nchars)) ∧
       outs !! k
       = Some (getslice (enc vocab s) (Z.of_nat k + 1) (Z.of_nat k + nchars + 1))).
Proof.
  split; [apply str_list_length|]. split.
  - intros i j Hi Hij Hj. split; [apply enc_getslice|].
    unfold len at 1. rewrite getslice_length by (rewrite ?enc_length; lia). lia.
  - intros nchars ins outs Hb k Hk.
    destruct (decide (0 ≤ nchars ≤ str_len s)%Z) as [[Hw HL]|Hbad].
    + rewrite get_batch_Ok in Hb by done. injection Hb as <- <-.
      rewrite !list_lookup_fmap, !range_lookup by done. simpl.
      by rewrite !enc_getslice.
    + rewrite get_batch_Raise in Hb by lia. discriminate.
Qed.

Lemma enc_commutes_with_slicing_witness :
  enc Examples.abc_vocab (str_slice "a bc" 1 3)
  = getslice (enc Examples.abc_vocab "a bc") 1 3 ∧
  enc Examples.abc_vocab (str_slice "a bc" 1 3) = [3; 2]%Z.
Proof.
  split; [|reflexivity].
  apply (enc_commutes_with_slicing Examples.abc_vocab "a bc");
    vm_compute; discriminate.
Defined.

(** ** The frequency counter *)

Section Order.
Context {A : Type}.
Implicit Types (l : list A) (x y z : A).

Lemma before_cons_tail l x y z : before l x y → before (z :: l) x y.
Proof. intros H. by right. Qed.

Lemma before_head l x y : y ∈ l → before (x :: l) x y.
Proof. intros H. by left. Qed.

Lemma before_elem_of l x y : before l x y → x ∈ l ∧ y ∈ l.
Proof.
  induction l as [|z l IH]; simpl; [done|].
  intros [[-> Hy]|Hb].
  - split; [apply elem_of_cons; by left | apply elem_of_cons; by right].
  - destruct (IH Hb). split; apply elem_of_cons; by right.
Qed.

Lemma before_snoc l x y z :
  before (l ++ [z]) x y ↔ before l x y ∨ (x ∈ l ∧ y = z).
Proof.
  induction l as [|w l IH]; simpl.
  - split.
    + intros [[_ Hy]|[]]. by apply not_elem_of_nil in Hy.
    + intros [[]|[Hx _]]. by apply not_elem_of_nil in Hx.
  - rewrite IH, elem_of_app, list_elem_of_singleton, elem_of_cons.
    intuition congruence.
Qed.

Lemma before_lookup l (i j : nat) x y :
  i < j → l !! i = Some x → l !! j = Some y → before l x y.
Proof.
  revert i j. induction l as [|z l IH]; intros i j Hij Hi Hj; [done|].
  destruct j as [|j]; [lia|]. destruct i as [|i]; simpl in *.
  - injection Hi as ->. left. split; [done|]. by eapply list_elem_of_lookup_2.
  - right. apply (IH i j); [lia|done..].
Qed.

Lemma before_filter (P : A → Prop) `{!∀ x, Decision (P x)} l x y :
  before (filter P l) x y → before l x y.
Proof.
  induction l as [|z l IH]; [done|].
  rewrite filter_cons. destruct (decide (P z)); simpl.
  - intros [[-> Hy]|Hb]; [left|right; by apply IH].
    split; [done|]. by apply list_elem_of_filter in Hy as [_ ?].
  - intros Hb. right. by apply IH.
Qed.

Lemma before_fmap {B : Type} (f : A → B) l x y :
  before l x y → before (f <$> l) (f x) (f y).
Proof.
  induction l as [|z l IH]; simpl; [done|].
  intros [[-> Hy]|Hb]; [left|right; by apply IH].
  split; [done|]. by apply list_elem_of_fmap_2.
Qed.

End Order.

Section CounterFacts.
Implicit Types (c : Counter) (s t : string) (tokens : list string).

Lemma counter_incr_keys c t :
  (counter_incr c t).*1 = if decide (t ∈ c.*1) then c.*1 else c.*1 ++ [t].
Proof.
  induction c as [|[k n] c IH].
  - by destruct (decide (t ∈ ([] : Counter).*1)) as [?%not_elem_of_nil|].
  - cbn [counter_incr]. rewrite fmap_cons. cbn [fst].
    destruct (decide (k = t)) as [->|Hne].
    + rewrite decide_True; [done|apply elem_of_cons; by left].
    + rewrite fmap_cons, IH. cbn [fst].
      destruct (decide (t ∈ c.*1)) as [Hin|Hout].
      * rewrite decide_True; [done|apply elem_of_cons; by right].
      * rewrite decide_False; [done|].
        rewrite elem_of_cons. intros [?|?]; congruence.
Qed.

(** With distinct keys, incrementing touches the entry of [t] alone. *)
Lemma counter_incr_entry c t s n :
  NoDup c.*1 → (s, n) ∈ counter_incr c t →
  (s ≠ t ∧ (s, n) ∈ c) ∨
  (s = t ∧ ∃ m, n = S m ∧ ((t, m) ∈ c ∨ (m = 0 ∧ t ∉ c.*1))).
Proof.
  induction c as [|[k m] c IH].
  - intros _ [= -> ->]%list_elem_of_singleton.
    right. split; [done|]. exists 0. split; [done|]. right.
    split; [done|apply not_elem_of_nil].
  - rewrite fmap_cons, NoDup_cons. cbn [fst counter_incr].
    intros [Hk Hnd]. destruct (decide (k = t)) as [->|Hne].
    + intros [[= -> ->]|Hin]%elem_of_cons.
      * right. split; [done|]. exists m. split; [done|]. left.
        apply elem_of_cons. by left.
      * left. split; [|apply elem_of_cons; by right].
        intros ->. apply Hk. by apply (list_elem_of_fmap_2 fst) in Hin.
    + intros [[= -> ->]|Hin]%elem_of_cons.
      * left. split; [done|]. apply elem_of_cons. by left.
      * destruct (IH Hnd Hin) as [[Hst Hc]|[-> (m' & -> & Hm')]].
        -- left. split; [done|]. apply elem_of_cons. by right.
        -- right. split; [done|]. exists m'. split; [done|].
           destruct Hm' as [Hc|[-> Hout]].
           ++ left. apply elem_of_cons. by right.
           ++ right. split; [done|].
              rewrite elem_of_cons. intros [?|?]; congruence.
Qed.

Lemma freq_snoc tokens t s :
  freq (tokens ++ [t]) s = freq tokens s + (if decide (t = s) then 1 else 0).
Proof.
  unfold freq. rewrite filter_app, length_app. f_equal.
  rewrite filter_cons, filter_nil. by destruct (decide (t = s)).
Qed.

Lemma freq_absent tokens s : s ∉ tokens → freq tokens s = 0.
Proof.
  intros Hs. unfold freq.
  destruct (filter (λ t, t = s) tokens) as [|x l] eqn:Hf; [done|].
  assert (Hx : x ∈ filter (λ t, t = s) tokens) by (rewrite Hf; apply elem_of_cons; by left).
  apply list_elem_of_filter in Hx as [-> ?]. done.
Qed.

Lemma seen_before_snoc tokens t a b :
  seen_before tokens a b → seen_before (tokens ++ [t]) a b.
Proof.
  intros (p & Hp & Hb). exists p.
  assert (Hlt := lookup_lt_Some _ _ _ Hp).
  split; [by apply lookup_app_l_Some|].
  by rewrite take_app_le by lia.
Qed.

Lemma seen_before_new tokens t a :
  a ∈ tokens → t ∉ tokens → seen_before (tokens ++ [t]) a t.
Proof.
  intros (p & Hp)%list_elem_of_lookup_1 Ht. exists p.
  assert (Hlt := lookup_lt_Some _ _ _ Hp).
  split; [by apply lookup_app_l_Some|].
  rewrite take_app_le by lia.
  intros (i & Hi & _)%elem_of_take. apply Ht. by eapply list_elem_of_lookup_2.
Qed.

Lemma counter_update_snoc c tokens t :
  counter_update c (tokens ++ [t]) = counter_incr (counter_update c tokens) t.
Proof. unfold counter_update. by rewrite foldl_app. Qed.

(** What the counter holds after reading [tokens]: one entry per distinct
    symbol, with its number of occurrences, in the order of first sight. *)
Lemma counter_update_inv tokens :
  NoDup (counter_update [] tokens).*1 ∧
  (∀ s, s ∈ (counter_update [] tokens).*1 ↔ s ∈ tokens) ∧
  (∀ s n, (s, n) ∈ counter_update [] tokens → n = freq tokens s) ∧
  (∀ a b, before (counter_update [] tokens).*1 a b → seen_before tokens a b).
Proof.
  induction tokens as [|t tokens (Hnd & Hkeys & Hcount & Hord)] using rev_ind.
  - repeat split; try done.
    + apply NoDup_nil_2.
    + by intros s n ?%not_elem_of_nil.
  - rewrite counter_update_snoc. set (c := counter_update [] tokens) in *.
    rewrite counter_incr_keys.
    split; [|split; [|split]].
    + destruct (decide (t ∈ c.*1)); [done|].
      apply NoDup_app. split; [done|]. split; [|apply NoDup_singleton].
      intros x Hx ->%list_elem_of_singleton. done.
    + intros s. rewrite elem_of_app, list_elem_of_singleton, <- Hkeys.
      destruct (decide (t ∈ c.*1)) as [Hin|Hout].
      * split; [by left|]. intros [?| ->]; done.
      * by rewrite elem_of_app, list_elem_of_singleton.
    + intros s n Hin. rewrite freq_snoc.
      destruct (counter_incr_entry c t s n Hnd Hin)
        as [[Hst Hc]|[-> (m & -> & Hm)]].
      * rewrite decide_False by done. rewrite (Hcount _ _ Hc). lia.
      * rewrite decide_True by done. destruct Hm as [Hc|[-> Hout]].
        -- rewrite (Hcount _ _ Hc). lia.
        -- rewrite freq_absent; [done|]. by rewrite <- Hkeys.
    + intros a b. destruct (decide (t ∈ c.*1)) as [Hin|Hout].
      * intros Hb. by apply seen_before_snoc, Hord.
      * intros [Hb|[Ha ->]]%before_snoc.
        -- by apply seen_before_snoc, Hord.
        -- apply seen_before_new; by rewrite <- Hkeys.
Qed.

Lemma tally_tokens (tokenizer : string → list string) (ds : list (Z * string)) :
  tally tokenizer ds = counter_update [] (corpus_tokens tokenizer ds).
Proof.
  unfold tally, corpus_tokens. generalize ([] : Counter) as c.
  induction ds as [|x ds IH]; intros c; simpl; [done|].
  rewrite IH. unfold counter_update. by rewrite foldl_app.
Qed.

End CounterFacts.

(** ** Ordering by frequency *)

Section SortFacts.
Implicit Types (p q : string * nat) (l c : list (string * nat)).

Lemma insert_by_freq_perm p l : insert_by_freq p l ≡ₚ p :: l.
Proof.
  induction l as [|q l IH]; simpl; [done|].
  destruct (p.2 <? q.2); [|done].
  rewrite IH. apply Permutation_swap.
Qed.

Lemma sort_by_freq_perm c : sort_by_freq c ≡ₚ c.
Proof.
  induction c as [|p c IH]; simpl; [done|].
  by rewrite insert_by_freq_perm, IH.
Qed.

Lemma insert_by_freq_elem p q l : q ∈ insert_by_freq p l ↔ q = p ∨ q ∈ l.
Proof. by rewrite insert_by_freq_perm, elem_of_cons. Qed.

Lemma sort_by_freq_elem q c : q ∈ sort_by_freq c ↔ q ∈ c.
Proof. by rewrite sort_by_freq_perm. Qed.

(** Where the new entry lands in a list that is already ordered: after
    the strictly more frequent entries, before all the others. *)
Lemma insert_by_freq_before p l x y :
  (∀ a b, before l a b → b.2 ≤ a.2) →
  before (insert_by_freq p l) x y →
  before l x y ∨ (x = p ∧ y ∈ l ∧ y.2 ≤ p.2) ∨ (y = p ∧ x ∈ l ∧ p.2 < x.2).
Proof.
  induction l as [|q l IH]; intros Hsorted.
  - simpl. intros [[_ Hy]|[]]. by apply not_elem_of_nil in Hy.
  - cbn [insert_by_freq]. destruct (Nat.ltb_spec p.2 q.2) as [Hlt|Hge].
    + cbn [before]. intros [[-> Hy]|Hb].
      * apply insert_by_freq_elem in Hy as [->|Hy].
        -- right. right. split; [done|]. split; [apply elem_of_cons; by left|done].
        -- left. by left.
      * destruct IH as [Hl|[(-> & Hy & Hle)|(-> & Hx & Hlt')]]; [..|done| | |].
        -- intros a b Hab. apply Hsorted. by right.
        -- left. by right.
        -- right. left. split; [done|]. split; [apply elem_of_cons; by right|done].
        -- right. right. split; [done|]. split; [apply elem_of_cons; by right|done].
    + change (before (p :: q :: l) x y) with ((p = x ∧ y ∈ q :: l) ∨ before (q :: l) x y).
      intros [[<- Hy]|Hb]; [|by left].
      right. left. split; [done|]. split; [done|].
      apply elem_of_cons in Hy as [->|Hy]; [done|].
      assert (y.2 ≤ q.2) by (apply Hsorted; by left). lia.
Qed.

(** The ordered list is by descending count, and entries of equal count
    are in the order they had in the counter. *)
Lemma sort_by_freq_before c x y :
  before (sort_by_freq c) x y → y.2 ≤ x.2 ∧ (x.2 = y.2 → before c x y).
Proof.
  revert x y. induction c as [|p c IH]; intros x y; [done|].
  cbn [sort_by_freq foldr]. fold (sort_by_freq c).
  intros Hb. apply insert_by_freq_before in Hb
    as [Hb|[(-> & Hy & Hle)|(-> & Hx & Hlt)]].
  - destruct (IH _ _ Hb) as [Hle Heq]. split; [done|].
    intros E. right. by apply Heq.
  - split; [done|]. intros _. left. split; [done|].
    by apply sort_by_freq_elem.
  - split; [lia|]. lia.
  - intros a b Hab. by apply IH.
Qed.

End SortFacts.

(** ** The built vocabulary *)

Section VocabFacts.
Implicit Types (c : Counter) (s : string).

Lemma imap_keys {B : Type} (g : nat → B) (l : list string) :
  (imap (λ i s, (s, g i)) l).*1 = l.
Proof.
  revert g. induction l as [|s l IH]; intros g; [done|].
  cbn [imap fmap list_fmap fst]. f_equal. apply (IH (g ∘ S)).
Qed.

Lemma Vocab_of_counter_itos c :
  itos (Vocab_of_counter c)
  = unk :: (sort_by_freq (filter (λ p, p.1 ≠ unk) c)).*1.
Proof. reflexivity. Qed.

Lemma Vocab_of_counter_NoDup c :
  NoDup c.*1 → NoDup (itos (Vocab_of_counter c)).
Proof.
  intros Hnd. rewrite Vocab_of_counter_itos. apply NoDup_cons. split.
  - intros ([k n] & Hk & Hin)%list_elem_of_fmap. simpl in Hk. subst k.
    apply sort_by_freq_elem, list_elem_of_filter in Hin as [Hne _]. done.
  - rewrite sort_by_freq_perm.
    apply (sublist_NoDup _ c.*1);
      first [exact Hnd | apply fmap_sublist, sublist_filter].
Qed.

(** [stoi] is the inverse of [itos]. *)
Lemma Vocab_of_counter_stoi c s (id : Z) :
  NoDup c.*1 →
  stoi (Vocab_of_counter c) !! s = Some id ↔
  ∃ i : nat, id = Z.of_nat i ∧ itos (Vocab_of_counter c) !! i = Some s.
Proof.
  intros Hnd. pose proof (Vocab_of_counter_NoDup c Hnd) as Hsym.
  unfold Vocab_of_counter in *. cbn [stoi itos] in *.
  rewrite <- elem_of_list_to_map by (by rewrite imap_keys).
  rewrite elem_of_lookup_imap. split.
  - intros (i & s' & [= -> ->] & Hi). eauto.
  - intros (i & -> & Hi). eauto.
Qed.

Lemma Vocab_of_counter_counted c s :
  s ∈ c.*1 → s ∈ itos (Vocab_of_counter c).
Proof.
  intros ([k n] & Hk & Hin)%list_elem_of_fmap. simpl in Hk. subst k.
  rewrite Vocab_of_counter_itos. apply elem_of_cons.
  destruct (decide (s = unk)) as [->|Hne]; [by left|right].
  apply (list_elem_of_fmap_2' fst _ (s, n)); [|done].
  by apply sort_by_freq_elem, list_elem_of_filter.
Qed.

Lemma Vocab_of_counter_listed c s (i : nat) :
  itos (Vocab_of_counter c) !! S i = Some s →
  s ≠ unk ∧ ∃ n, sort_by_freq (filter (λ p, p.1 ≠ unk) c) !! i = Some (s, n).
Proof.
  rewrite Vocab_of_counter_itos. cbn [lookup list_lookup].
  intros ([k n] & -> & Hi)%list_lookup_fmap_Some. cbn [fst].
  split; [|by exists n].
  apply list_elem_of_lookup_2, sort_by_freq_elem, list_elem_of_filter in Hi
    as [Hne _]. done.
Qed.

End VocabFacts.

Section BuildFacts.
Variable tokenizer : string → list string.
Variable train_dataset : list (Z * string).

Local Abbreviation tokens := (corpus_tokens tokenizer train_dataset).
Local Abbreviation built := (build tokenizer train_dataset).

Lemma build_keys_NoDup : NoDup (tally tokenizer train_dataset).*1.
Proof. rewrite tally_tokens. apply counter_update_inv. Qed.

Lemma build_itos_NoDup : NoDup (itos built).
Proof. apply Vocab_of_counter_NoDup, build_keys_NoDup. Qed.

Lemma build_stoi s (id : Z) :
  stoi built !! s = Some id ↔
  ∃ i : nat, id = Z.of_nat i ∧ itos built !! i = Some s.
Proof. apply Vocab_of_counter_stoi, build_keys_NoDup. Qed.

Lemma build_covers s : s ∈ tokens → s ∈ itos built.
Proof.
  intros Hs. apply Vocab_of_counter_counted.
  rewrite tally_tokens. by apply counter_update_inv.
Qed.

(** A symbol listed after id 0 was counted, with its frequency. *)
Lemma build_listed s (i : nat) :
  itos built !! S i = Some s →
  s ≠ unk ∧ s ∈ tokens ∧
  sort_by_freq (filter (λ p, p.1 ≠ unk) (tally tokenizer train_dataset)) !! i
  = Some (s, freq tokens s).
Proof.
  intros (Hne & n & Hi)%Vocab_of_counter_listed.
  assert (Hin : (s, n) ∈ counter_update [] tokens).
  { apply list_elem_of_lookup_2, sort_by_freq_elem, list_elem_of_filter in Hi
      as [_ Hin]. by rewrite <- tally_tokens. }
  destruct (counter_update_inv tokens) as (_ & Hkeys & Hcount & _).
  split; [done|]. split.
  - apply Hkeys. by apply (list_elem_of_fmap_2 fst) in Hin.
  - by rewrite <- (Hcount _ _ Hin).
Qed.

End BuildFacts.

(** C8: in the vocabulary built from a corpus, id 0 is the unknown symbol
    and every symbol outside the corpus is sent to it; the counted symbols
    take the following ids by descending frequency, equally frequent ones
    in the order in which they were first seen; the ids in use are exactly
    those of [[0, vocab_size)], one symbol each. *)
Theorem build_ids_by_frequency (tokenizer : string → list string)
    (train_dataset : list (Z * string)) :
  (itos (build tokenizer train_dataset) !! 0 = Some unk ∧
   stoi (build tokenizer train_dataset) !! unk = Some 0%Z ∧
   ∀ s, s ∉ corpus_tokens tokenizer train_dataset → s ≠ unk →
        stoi (build tokenizer train_dataset) !! s = None ∧
        stoi_get (build tokenizer train_dataset) s = 0%Z) ∧
  (∀ (i j : nat) (a b : string),
     1 ≤ i → i < j →
     itos (build tokenizer train_dataset) !! i = Some a →
     itos (build tokenizer train_dataset) !! j = Some b →
     freq (corpus_tokens tokenizer train_dataset) b
       ≤ freq (corpus_tokens tokenizer train_dataset) a ∧
     (freq (corpus_tokens tokenizer train_dataset) a
        = freq (corpus_tokens tokenizer train_dataset) b →
      seen_before (corpus_tokens tokenizer train_dataset) a b)) ∧
  (NoDup (itos (build tokenizer train_dataset)) ∧
   (∀ s, s ∈ corpus_tokens tokenizer train_dataset →
         s ∈ itos (build tokenizer train_dataset)) ∧
   ∀ (s : string) (id : Z),
     stoi (build tokenizer train_dataset) !! s = Some id ↔
     (0 ≤ id < vocab_size (build tokenizer train_dataset))%Z ∧
     itos (build tokenizer train_dataset) !! Z.to_nat id = Some s).
Proof.
  split; [|split].
  - split; [done|]. split.
    + apply build_stoi. by exists 0.
    + intros s Hs Hne.
      assert (Hnone : stoi (build tokenizer train_dataset) !! s = None).
      { destruct (stoi (build tokenizer train_dataset) !! s) as [id|] eqn:Hid;
          [|done].
        apply build_stoi in Hid as ([|i] & _ & Hi).
        - injection Hi as <-. done.
        - apply build_listed in Hi as (_ & Hin & _). done. }
      split; [done|]. unfold stoi_get. by rewrite Hnone.
  - intros [|i] [|j] a b Hi Hij Ha Hb; try lia.
    apply build_listed in Ha as (_ & _ & Ha).
    apply build_listed in Hb as (_ & _ & Hb).
    assert (Hbefore := before_lookup _ i j _ _ ltac:(lia) Ha Hb).
    apply sort_by_freq_before in Hbefore as [Hle Htie]. cbn [snd] in *.
    split; [done|]. intros Heq.
    apply Htie, before_filter, (before_fmap fst) in Heq.
    rewrite tally_tokens in Heq. by apply counter_update_inv in Heq.
  - split; [apply build_itos_NoDup|]. split; [apply build_covers|].
    intros s id. rewrite build_stoi. unfold vocab_size, len. split.
    + intros (i & -> & Hi). rewrite Nat2Z.id.
      apply lookup_lt_Some in Hi as Hlt. split; [lia|done].
    + intros [Hid Hs]. exists (Z.to_nat id). split; [lia|done].
Qed.

Lemma build_ids_by_frequency_witness :
  itos (build char_tokenizer Examples.tiny_corpus) = ["<unk>"; "a"; "b"; "c"] ∧
  freq (corpus_tokens char_tokenizer Examples.tiny_corpus) "b"
    ≤ freq (corpus_tokens char_tokenizer Examples.tiny_corpus) "a" ∧
  seen_before (corpus_tokens char_tokenizer Examples.tiny_corpus) "a" "b".
Proof.
  split; [reflexivity|].
  destruct (build_ids_by_frequency char_tokenizer Examples.tiny_corpus)
    as (_ & Hord & _).
  destruct (Hord 1 2 "a" "b") as [Hle Htie];
    [lia|lia|reflexivity|reflexivity|].
  split; [exact Hle|]. apply Htie. reflexivity.
Defined.

(** C9: every symbol of the corpus the vocabulary was built from has an
    id, and decoding that id gives the symbol back:
    [itos[stoi[s]] = s]. *)
Theorem build_round_trip (tokenizer : string → list string)
    (train_dataset : list (Z * string)) (s : string) :
  s ∈ corpus_tokens tokenizer train_dataset →
  ∃ id : Z,
    stoi (build tokenizer train_dataset) !! s = Some id ∧
    stoi_get (build tokenizer train_dataset) s = id ∧
    decode (build tokenizer train_dataset) id = Ok s.
Proof.
  intros Hs. apply build_covers, list_elem_of_lookup_1 in Hs as [i Hi].
  assert (Hid : stoi (build tokenizer train_dataset) !! s = Some (Z.of_nat i))
    by (apply build_stoi; eauto).
  exists (Z.of_nat i). split; [done|]. split.
  - unfold stoi_get. by rewrite Hid.
  - apply decode_Ok; [lia|]. by rewrite Nat2Z.id.
Qed.

Lemma build_round_trip_witness :
  "b" ∈ corpus_tokens char_tokenizer Examples.tiny_corpus ∧
  ∃ id : Z,
    stoi_get (build char_tokenizer Examples.tiny_corpus) "b" = id ∧
    decode (build char_tokenizer Examples.tiny_corpus) id = Ok "b".
Proof.
  assert (Hin : "b" ∈ corpus_tokens char_tokenizer Examples.tiny_corpus).
  { apply list_elem_of_lookup. by exists 1. }
  split; [exact Hin|].
  destruct (build_round_trip char_tokenizer Examples.tiny_corpus "b" Hin)
    as (id & _ & Hget & Hdec).
  exists id. split; [exact Hget|exact Hdec].
Defined.

(** ** Generators *)

Section GeneratorFacts.
Context {score state : Type}.
Variable score_ltb : score → score → bool.
Variable net : list Z → option state → result (list (list score) * state).
Variable vocab : Vocab.

(** The order [torch.argmax] ranks by is a strict weak order: [<] on
    numbers, with the NaNs, equal in rank, above all of them. *)
Hypothesis ltb_irrefl : ∀ x, score_ltb x x = false.
Hypothesis ltb_trans :
  ∀ x y z, score_ltb x y = true → score_ltb y z = true → score_ltb x z = true.
Hypothesis ltb_cotrans :
  ∀ x y z, score_ltb x z = true → score_ltb x y = true ∨ score_ltb y z = true.

Lemma first_max_keep (pre : list score) bi best x :
  first_max score_ltb pre bi best → score_ltb best x = false →
  first_max score_ltb (pre ++ [x]) bi best.
Proof.
  intros (Hbest & Hmax & Hfirst) Hx.
  assert (Hlt := lookup_lt_Some _ _ _ Hbest).
  split; [by apply lookup_app_l_Some|]. split.
  - intros j w [Hw|[_ Hw]]%lookup_app_Some; [by eapply Hmax|].
    apply list_lookup_singleton_Some in Hw as [_ <-]. done.
  - intros j w Hj Hw. apply (Hfirst j); [done|].
    by rewrite lookup_app_l in Hw by lia.
Qed.

Lemma first_max_replace (pre : list score) bi best x :
  first_max score_ltb pre bi best → score_ltb best x = true →
  first_max score_ltb (pre ++ [x]) (length pre) x.
Proof.
  intros (Hbest & Hmax & Hfirst) Hx. split; [|split].
  - by rewrite lookup_app_r, Nat.sub_diag by lia.
  - intros j w [Hw|[_ Hw]]%lookup_app_Some.
    + destruct (score_ltb x w) eqn:Hxw; [|done].
      rewrite <- (Hmax j w Hw). symmetry. by apply (ltb_trans best x w).
    + apply list_lookup_singleton_Some in Hw as [_ <-]. apply ltb_irrefl.
  - intros j w Hj Hw. rewrite lookup_app_l in Hw by done.
    destruct (ltb_cotrans best w x Hx) as [Hbw|Hwx]; [|done].
    by rewrite (Hmax j w Hw) in Hbw.
Qed.

Lemma argmax_from_first_max (v pre : list score) bi best :
  first_max score_ltb pre bi best →
  ∃ vr, first_max score_ltb (pre ++ v)
          (argmax_from score_ltb bi best (length pre) v) vr.
Proof.
  revert pre bi best. induction v as [|x v IH]; intros pre bi best Hinv.
  - exists best. by rewrite app_nil_r.
  - cbn [argmax_from]. rewrite (cons_middle x), app_assoc.
    replace (S (length pre)) with (length (pre ++ [x]))
      by (rewrite length_app; simpl; lia).
    destruct (score_ltb best x) eqn:Hx.
    + apply IH. by eapply first_max_replace.
    + apply IH. by apply first_max_keep.
Qed.

Lemma first_max_unique (v : list score) i1 i2 v1 v2 :
  first_max score_ltb v i1 v1 → first_max score_ltb v i2 v2 → i1 = i2.
Proof.
  intros (H1 & Hmax1 & Hfirst1) (H2 & Hmax2 & Hfirst2).
  destruct (lt_eq_lt_dec i1 i2) as [[Hlt|Heq]|Hgt]; [|done|].
  - specialize (Hfirst2 i1 v1 Hlt H1). by rewrite (Hmax1 i2 v2 H2) in Hfirst2.
  - specialize (Hfirst1 i2 v2 Hgt H2). by rewrite (Hmax2 i1 v1 H1) in Hfirst1.
Qed.

Lemma greedy_choice_first_max (logits : list score) (nc : Z) :
  greedy_choice score_ltb logits nc ↔
  (0 ≤ nc)%Z ∧ ∃ v, first_max score_ltb logits (Z.to_nat nc) v.
Proof. reflexivity. Qed.

(** [argmax] returns the greedy choice, and nothing else is one. *)
Lemma argmax_greedy_choice (logits : list score) (nc : Z) :
  argmax score_ltb logits = Ok nc ↔ greedy_choice score_ltb logits nc.
Proof.
  rewrite greedy_choice_first_max. destruct logits as [|x v].
  - split; [done|]. by intros (_ & w & Hw & _).
  - cbn [argmax].
    destruct (argmax_from_first_max v [x] 0 x) as [vr Hvr].
    { split; [done|]. split.
      - intros [|j] w Hw; [|done]. injection Hw as <-. apply ltb_irrefl.
      - intros j w Hj. lia. }
    cbn [length app] in Hvr. split.
    + intros [= <-]. split; [lia|]. exists vr. by rewrite Nat2Z.id.
    + intros (Hnc & w & Hw). f_equal.
      rewrite <- (first_max_unique _ _ _ _ _ Hw Hvr). lia.
Qed.

Lemma greedy_run_length (n : nat) out s cs :
  greedy_run score_ltb net vocab n out s cs → length cs = n.
Proof. induction 1; simpl; congruence. Qed.

(** One iteration of the loop of [generate] is one step of the greedy
    algorithm. *)
Lemma generate_body_step chars out s (i : Z) chars' out' s' :
  generate_body score_ltb net vocab (chars, out, s) i = Ok (chars', out', s') ↔
  ∃ logits nc c,
    last out = Some logits ∧ greedy_choice score_ltb logits nc ∧
    itos vocab !! Z.to_nat nc = Some c ∧
    net [nc] (Some s) = Ok (out', s') ∧ chars' = chars ++ [c].
Proof.
  unfold generate_body. split.
  - destruct (getitem out (-1)) as [logits|] eqn:Hlast; [|done].
    cbn [mbind result_bind].
    destruct (argmax score_ltb logits) as [nc|] eqn:Hnc; [|done].
    cbn [mbind result_bind].
    destruct (getitem (itos vocab) nc) as [c|] eqn:Hc; [|done].
    cbn [mbind result_bind].
    destruct (net [nc] (Some s)) as [[o t]|] eqn:Hnet; [|done].
    cbn [mbind result_bind fst snd]. intros [= <- <- <-].
    apply getitem_last_inv in Hlast. apply argmax_greedy_choice in Hnc.
    exists logits, nc, c.
    split; [done|]. split; [done|]. split; [|done].
    apply getitem_Ok in Hc as [[_ Hc]|[[_ Hneg] _]]; [done|].
    destruct Hnc as [Hpos _]. lia.
  - intros (logits & nc & c & Hlast & Hnc & Hc & Hnet & ->).
    rewrite (getitem_last _ _ Hlast). cbn [mbind result_bind].
    pose proof Hnc as [Hpos _].
    apply argmax_greedy_choice in Hnc. rewrite Hnc. cbn [mbind result_bind].
    pose proof (decode_Ok vocab nc c Hpos Hc) as Hdec. unfold decode in Hdec.
    rewrite Hdec. cbn [mbind result_bind].
    by rewrite Hnet.
Qed.

(** The whole loop is a greedy run of as many steps as it has iterations. *)
Lemma generate_loop_run (xs : list Z) chars out s chars' out' s' :
  for_each (generate_body score_ltb net vocab) (chars, out, s) xs
    = Ok (chars', out', s') →
  ∃ cs, greedy_run score_ltb net vocab (length xs) out s cs ∧
        chars' = chars ++ cs.
Proof.
  revert chars out s. induction xs as [|i xs IH]; intros chars out s.
  - simpl. intros [= <- <- <-]. exists []. split; [constructor|].
    by rewrite app_nil_r.
  - cbn [for_each].
    destruct (generate_body score_ltb net vocab (chars, out, s) i)
      as [[[chars1 out1] s1]|] eqn:Hbody; [|done].
    cbn [mbind result_bind]. intros Hrest.
    apply generate_body_step in Hbody
      as (logits & nc & c & Hlast & Hnc & Hc & Hnet & ->).
    destruct (IH _ _ _ Hrest) as (cs & Hrun & ->).
    exists (c :: cs). split; [by econstructor|].
    by rewrite <- app_assoc.
Qed.

Lemma greedy_run_loop (xs : list Z) chars out s cs :
  greedy_run score_ltb net vocab (length xs) out s cs →
  ∃ out' s',
    for_each (generate_body score_ltb net vocab) (chars, out, s) xs
    = Ok (chars ++ cs, out', s').
Proof.
  revert chars out s cs. induction xs as [|i xs IH]; intros chars out s cs Hrun.
  - inversion Hrun; subst. exists out, s. simpl. by rewrite app_nil_r.
  - inversion Hrun as [|n o t logits nc c out1 s1 cs1 Hlast Hnc Hc Hnet Hrest];
      subst.
    cbn [for_each].
    assert (Hbody : generate_body score_ltb net vocab (chars, out, s) i
                    = Ok (chars ++ [c], out1, s1)).
    { apply generate_body_step. by exists logits, nc, c. }
    rewrite Hbody. cbn [mbind result_bind].
    destruct (IH (chars ++ [c]) _ _ _ Hrest) as (out' & s' & Hloop).
    exists out', s'. by rewrite Hloop, <- app_assoc.
Qed.

(** The encoded seed reaches the model as it is, empty or not. *)
Lemma view_enc (start : string) :
  view (enc_chars vocab (str_list start)) = Ok (enc vocab start).
Proof. reflexivity. Qed.

(** [generate] returns [r] exactly when priming succeeds and [r] is the
    seed followed by the symbols of a greedy run of [size] steps. *)
Lemma generate_greedy_run (size : Z) (start r : string) :
  generate score_ltb net vocab size start = Ok r ↔
  ∃ out s cs,
    net (enc vocab start) None = Ok (out, s) ∧
    greedy_run score_ltb net vocab (Z.to_nat size) out s cs ∧
    length cs = Z.to_nat size ∧
    r = start +:+ str_join cs.
Proof.
  unfold generate. rewrite view_enc. cbn [mbind result_bind]. split.
  - destruct (net (enc vocab start) None) as [[out s]|] eqn:Hnet; [|done].
    cbn [mbind result_bind fst snd].
    destruct (for_each _ _ _) as [[[chars' out'] s']|] eqn:Hloop; [|done].
    cbn [mbind result_bind fst snd]. intros [= <-].
    apply generate_loop_run in Hloop as (cs & Hrun & ->).
    rewrite range_length in Hrun.
    exists out, s, cs. split; [done|]. split; [done|].
    split; [by eapply greedy_run_length|].
    by rewrite str_join_app, str_join_list.
  - intros (out & s & cs & Hnet & Hrun & _ & ->).
    rewrite Hnet.
    cbn [mbind result_bind fst snd].
    rewrite <- (range_length size) in Hrun.
    destruct (greedy_run_loop _ (str_list start) _ _ _ Hrun)
      as (out' & s' & Hloop).
    rewrite Hloop. cbn [mbind result_bind fst snd].
    by rewrite str_join_app, str_join_list.
Qed.

(** With a model that answers, a greedy run of any length exists. *)
Lemma greedy_run_exists (n : nat) out s :
  model_ok net vocab → out ≠ [] →
  Forall (λ l : list score, 0 < length l ≤ length (itos vocab)) out →
  ∃ cs, greedy_run score_ltb net vocab n out s cs.
Proof.
  intros Hnet. revert out s. induction n as [|n IH]; intros out s Hne Hout.
  - exists []. constructor.
  - destruct (last out) as [logits|] eqn:Hlast;
      [|by apply last_None in Hlast].
    assert (Hlog : 0 < length logits ≤ length (itos vocab)).
    { rewrite Forall_forall in Hout. apply Hout.
      rewrite last_lookup in Hlast. by eapply list_elem_of_lookup_2. }
    destruct (argmax score_ltb logits) as [nc|] eqn:Hnc;
      [|destruct logits; [simpl in Hlog; lia|done]].
    apply argmax_greedy_choice in Hnc.
    pose proof Hnc as (Hpos & v & Hv & _).
    apply lookup_lt_Some in Hv.
    destruct (lookup_lt_is_Some_2 (itos vocab) (Z.to_nat nc)) as [c Hc]; [lia|].
    destruct (Hnet [nc] (Some s)) as (out' & s' & Hstep & Hlen & Hout');
      [done|].
    destruct (IH out' s') as [cs Hrun]; [by destruct out'|done|].
    exists (c :: cs). by econstructor.
Qed.

(** [generate] returns on every non-empty seed when the model answers. *)
Lemma generate_returns (size : Z) (start : string) :
  model_ok net vocab → start ≠ EmptyString →
  ∃ cs, length cs = Z.to_nat size ∧
        generate score_ltb net vocab size start = Ok (start +:+ str_join cs).
Proof.
  intros Hnet Hne.
  destruct (Hnet (enc vocab start) None) as (out & s & Hprime & Hlen & Hout).
  { by destruct start. }
  destruct (greedy_run_exists (Z.to_nat size) out s Hnet) as [cs Hrun];
    [destruct out; [by destruct start|done]|done|].
  exists cs. split; [by eapply greedy_run_length|].
  apply generate_greedy_run.
  exists out, s, cs. split; [done|]. split; [done|].
  split; [by eapply greedy_run_length|done].
Qed.

End GeneratorFacts.

(** C4: [generate] primes the model on the encoded seed; then, [size]
    times, it picks the id of maximal logit (the lowest id among equal
    maxima), decodes it, appends it and feeds it back with the state; it
    returns the seed followed by the [size] generated symbols, and it does
    return whenever the seed is not empty and the model answers. An empty
    seed is not rejected: it is handed to the model like any other. With the
    vocabulary [{<unk>:0, a:1, b:2, ' ':3}] and a model that always scores
    id 2 highest, [generate(size=3, start="a")] is ["abbb"]. *)
Theorem generate_greedy_correct {score state : Type}
    (score_ltb : score → score → bool)
    (net : list Z → option state → result (list (list score) * state))
    (vocab : Vocab) (size : Z) (start r : string)
    (ltb_irrefl : ∀ x, score_ltb x x = false)
    (ltb_trans : ∀ x y z, score_ltb x y = true → score_ltb y z = true →
                          score_ltb x z = true)
    (ltb_cotrans : ∀ x y z, score_ltb x z = true →
                            score_ltb x y = true ∨ score_ltb y z = true) :
  (generate score_ltb net vocab size start = Ok r ↔
   ∃ out s cs,
     net (enc vocab start) None = Ok (out, s) ∧
     greedy_run score_ltb net vocab (Z.to_nat size) out s cs ∧
     length cs = Z.to_nat size ∧
     r = start +:+ str_join cs) ∧
  (model_ok net vocab → start ≠ EmptyString →
   ∃ cs, length cs = Z.to_nat size ∧
         generate score_ltb net vocab size start = Ok (start +:+ str_join cs)) ∧
  generate Z.ltb Examples.b_net Examples.abc_vocab 3 "a" = Ok "abbb".
Proof.
  split; [by apply generate_greedy_run|].
  split; [by apply generate_returns|reflexivity].
Qed.

Lemma generate_greedy_correct_witness :
  model_ok Examples.b_net Examples.abc_vocab ∧
  (∃ out s cs,
     Examples.b_net (enc Examples.abc_vocab "a") None = Ok (out, s) ∧
     greedy_run Z.ltb Examples.b_net Examples.abc_vocab 3 out s cs ∧
     "abbb" = "a" +:+ str_join cs) ∧
  ∃ cs, length cs = 3 ∧
        generate Z.ltb Examples.b_net Examples.abc_vocab 3 "a"
        = Ok ("a" +:+ str_join cs).
Proof.
  assert (Hok : model_ok Examples.b_net Examples.abc_vocab).
  { intros x s _. exists ((λ _, [0; 0; 1; 0]%Z) <$> x), tt.
    split; [reflexivity|]. split; [apply length_fmap|].
    apply Forall_fmap, Forall_true. intros y. simpl. lia. }
  split; [exact Hok|].
  destruct (generate_greedy_correct Z.ltb Examples.b_net Examples.abc_vocab
              3 "a" "abbb") as [[Hrun _] [Hret _]].
  - apply Z.ltb_irrefl.
  - intros x y z Hxy%Z.ltb_lt Hyz%Z.ltb_lt. apply Z.ltb_lt. lia.
  - intros x y z Hxz%Z.ltb_lt. rewrite !Z.ltb_lt. lia.
  - split.
    + destruct (Hrun eq_refl) as (out & s & cs & Hnet & Hsteps & _ & Hr).
      exists out, s, cs. split; [exact Hnet|]. split; [exact Hsteps|exact Hr].
    + apply (Hret Hok). discriminate.
Defined.

(** ** Soft generation *)

Section SoftFacts.
Context {score state rng : Type}.
Variable net : list Z → option state → result (list (list score) * state).
Variable vocab : Vocab.
Variable fdiv : score → score → score.
Variable fexp : score → score.
Variable multinomial : list score → rng → result (Z * rng).

(** No sampling step is run for a non-positive [size]. *)
Lemma range_nonpos (size : Z) : (size ≤ 0)%Z → range size = [].
Proof.
  intros Hs. unfold range, seqZ.
  by replace (Z.to_nat size) with 0 by lia.
Qed.




End SoftFacts.




(** * Further properties of the notebooks' code *)

(** ** The frequency counter *)

Lemma counter_incr_total (c : Counter) (t : string) :
  sum_list (counter_incr c t).*2 = S (sum_list c.*2).
Proof.
  induction c as [|[k n] c IH]; [done|].
  cbn [counter_incr]. destruct (decide (k = t)); [done|].
  rewrite !fmap_cons. cbn [snd sum_list foldr]. rewrite IH. simpl. lia.
Qed.

Lemma counter_update_total (tokens : list string) :
  sum_list (counter_update [] tokens).*2 = length tokens.
Proof.
  induction tokens as [|t tokens IH] using rev_ind; [done|].
  rewrite counter_update_snoc, counter_incr_total, IH, length_app. simpl. lia.
Qed.

Lemma freq_present (tokens : list string) (s : string) :
  s ∈ tokens → 0 < freq tokens s.
Proof.
  intros Hs. unfold freq.
  assert (Hin : s ∈ filter (λ t, t = s) tokens) by (by apply list_elem_of_filter).
  destruct (filter (λ t, t = s) tokens); [by apply not_elem_of_nil in Hin|].
  simpl. lia.
Qed.

(** X1: after the counting loop the counter has one entry per distinct
    symbol of the corpus, holding the number of its occurrences (never 0);
    the entries are in the order in which the symbols were first read, and
    the counts add up to the number of symbols read. Labels and line
    boundaries play no part. *)
Theorem tally_counts_occurrences (tokenizer : string → list string)
    (train_dataset : list (Z * string)) :
  NoDup (tally tokenizer train_dataset).*1 ∧
  (∀ s, s ∈ (tally tokenizer train_dataset).*1 ↔
        s ∈ corpus_tokens tokenizer train_dataset) ∧
  (∀ s n, (s, n) ∈ tally tokenizer train_dataset →
          n = freq (corpus_tokens tokenizer train_dataset) s ∧ 0 < n) ∧
  (∀ a b, before (tally tokenizer train_dataset).*1 a b →
          seen_before (corpus_tokens tokenizer train_dataset) a b) ∧
  sum_list (tally tokenizer train_dataset).*2
  = length (corpus_tokens tokenizer train_dataset).
Proof.
  rewrite tally_tokens.
  destruct (counter_update_inv (corpus_tokens tokenizer train_dataset))
    as (Hnd & Hkeys & Hcount & Hord).
  split; [done|]. split; [done|]. split; [|split; [done|]].
  - intros s n Hin. rewrite (Hcount s n Hin). split; [done|].
    apply freq_present, Hkeys. by apply (list_elem_of_fmap_2 fst) in Hin.
  - apply counter_update_total.
Qed.

Lemma tally_counts_occurrences_witness :
  tally char_tokenizer Examples.tiny_corpus = [("a", 3); ("b", 3); ("c", 1)] ∧
  3 = freq (corpus_tokens char_tokenizer Examples.tiny_corpus) "b" ∧
  seen_before (corpus_tokens char_tokenizer Examples.tiny_corpus) "a" "c".
Proof.
  split; [reflexivity|].
  destruct (tally_counts_occurrences char_tokenizer Examples.tiny_corpus)
    as (_ & _ & Hcount & Hord & _).
  split.
  - apply (Hcount "b" 3). apply list_elem_of_lookup. by exists 1.
  - apply Hord.
    assert (Hb : before ["a"; "b"; "c"] "a" "c"); [|exact Hb].
    left. split; [reflexivity|]. apply list_elem_of_lookup. by exists 1.
Defined.

(** ** Bag of words *)

Section BowFacts.
Context {num : Type}.
Variable zero : num.
Variable add_one : num → num.
Variable vocab : Vocab.
Variable tokenizer : string → list string.

(** How often the id [j] occurs among [ids]. *)
Definition occurrences (ids : list Z) (j : nat) : nat :=
  length (filter (λ i, i = Z.of_nat j) ids).

Lemma occurrences_cons (i : Z) (ids : list Z) (j : nat) :
  occurrences (i :: ids) j
  = (if decide (i = Z.of_nat j) then 1 else 0) + occurrences ids j.
Proof.
  unfold occurrences. rewrite filter_cons.
  by destruct (decide (i = Z.of_nat j)).
Qed.

Lemma zeros1_Ok (n : Z) :
  (0 ≤ n)%Z → zeros1 zero n = Ok (replicate (Z.to_nat n) zero).
Proof. intros Hn. unfold zeros1. by destruct (Z.ltb_spec n 0); [lia|]. Qed.

Lemma incr_Ok (res : list num) (i : Z) (v : num) :
  (0 ≤ i)%Z → res !! Z.to_nat i = Some v →
  incr add_one res i = Ok (<[Z.to_nat i := add_one v]> res).
Proof.
  intros Hi Hv. unfold incr, norm_index.
  destruct (Z.ltb_spec i 0); [lia|].
  destruct (Z.ltb_spec i 0); [lia|]. by rewrite Hv.
Qed.

Lemma to_bow_body_inside (size : Z) (res : list num) (i : Z) (v : num) :
  (0 ≤ i < size)%Z → res !! Z.to_nat i = Some v →
  to_bow_body add_one size res i = Ok (<[Z.to_nat i := add_one v]> res).
Proof.
  intros [Hi Hlt] Hv. unfold to_bow_body.
  destruct (Z.ltb_spec i size); [|lia]. by apply incr_Ok.
Qed.

Lemma to_bow_body_outside (size : Z) (res : list num) (i : Z) :
  (size ≤ i)%Z → to_bow_body add_one size res i = Ok res.
Proof.
  intros Hge. unfold to_bow_body. by destruct (Z.ltb_spec i size); [lia|].
Qed.

(** The loop of [to_bow]: every entry is advanced by one as many times as
    its index occurs among the ids still to be read. *)
Lemma to_bow_loop (size : Z) (ids : list Z) :
  ∀ res : list num,
    Forall (λ i, 0 ≤ i)%Z ids → len res = size →
    ∃ res',
      for_each (to_bow_body add_one size) res ids = Ok res' ∧
      length res' = length res ∧
      ∀ (j : nat) (v : num), res !! j = Some v →
        res' !! j = Some (Nat.iter (occurrences ids j) add_one v).
Proof.
  induction ids as [|i ids IH]; intros res Hids Hlen.
  - exists res. by repeat split.
  - apply Forall_cons in Hids as [Hi Hids]. cbn [for_each].
    destruct (Z.lt_ge_cases i size) as [Hlt|Hge].
    + destruct (lookup_lt_is_Some_2 res (Z.to_nat i)) as [v0 Hv0];
        [unfold len in Hlen; lia|].
      rewrite (to_bow_body_inside size res i v0) by done.
      cbn [mbind result_bind].
      destruct (IH (<[Z.to_nat i := add_one v0]> res)) as (res' & Hloop & Hl & Hres');
        [done|by unfold len in *; rewrite length_insert|].
      exists res'. split; [done|]. split; [by rewrite Hl, length_insert|].
      intros j v Hj. rewrite occurrences_cons.
      destruct (decide (i = Z.of_nat j)) as [->|Hne].
      * rewrite Nat2Z.id in *. rewrite Hj in Hv0. injection Hv0 as <-.
        rewrite (Hres' j (add_one v)).
        -- by rewrite <- Nat.iter_succ_r.
        -- rewrite list_lookup_insert_eq; [done|]. by eapply lookup_lt_Some.
      * rewrite (Hres' j v); [done|].
        rewrite list_lookup_insert_ne; [done|]. lia.
    + rewrite to_bow_body_outside by done. cbn [mbind result_bind].
      destruct (IH res) as (res' & Hloop & Hl & Hres'); [done..|].
      exists res'. split; [done|]. split; [done|].
      intros j v Hj. rewrite occurrences_cons.
      apply lookup_lt_Some in Hj as Hjlt. unfold len in Hlen.
      rewrite decide_False by lia. by apply Hres'.
Qed.

Lemma encode_nonneg (text : string) :
  (∀ s id, stoi vocab !! s = Some id → (0 ≤ id)%Z) →
  Forall (λ i, 0 ≤ i)%Z (encode vocab tokenizer text).
Proof.
  intros Hids. unfold encode. apply Forall_fmap, Forall_true. intros s.
  simpl. unfold stoi_get.
  destruct (stoi vocab !! s) as [id|] eqn:Hs; simpl; [by eapply Hids|done].
Qed.

Lemma to_bow_Ok (text : string) (size : Z) :
  (0 ≤ size)%Z →
  (∀ s id, stoi vocab !! s = Some id → (0 ≤ id)%Z) →
  ∃ res,
    to_bow zero add_one vocab tokenizer text size = Ok res ∧
    length res = Z.to_nat size ∧
    ∀ j : nat, j < Z.to_nat size →
      res !! j
      = Some (Nat.iter (occurrences (encode vocab tokenizer text) j) add_one zero).
Proof.
  intros Hsize Hids. unfold to_bow. rewrite zeros1_Ok by done.
  cbn [mbind result_bind].
  destruct (to_bow_loop size (encode vocab tokenizer text)
              (replicate (Z.to_nat size) zero))
    as (res & Hloop & Hlen & Hres).
  { by apply encode_nonneg. }
  { unfold len. rewrite length_replicate. lia. }
  exists res. split; [done|]. rewrite length_replicate in Hlen.
  split; [done|]. intros j Hj. apply Hres.
  by apply lookup_replicate_2.
Qed.

End BowFacts.

(** X2: with a vocabulary whose ids are not negative and a size that is
    not negative, [to_bow] never fails; its result has [bow_vocab_size]
    entries, and entry [j] is [0.] advanced by one as many times as the id
    [j] occurs in the encoded text, ids from [bow_vocab_size] on being left
    out. A negative size is rejected when the tensor is allocated. *)
Theorem to_bow_counts_ids {num : Type} (zero : num) (add_one : num → num)
    (vocab : Vocab) (tokenizer : string → list string)
    (text : string) (bow_vocab_size : Z) :
  ((0 ≤ bow_vocab_size)%Z →
   (∀ s id, stoi vocab !! s = Some id → (0 ≤ id)%Z) →
   ∃ res,
     to_bow zero add_one vocab tokenizer text bow_vocab_size = Ok res ∧
     length res = Z.to_nat bow_vocab_size ∧
     ∀ j : nat, j < Z.to_nat bow_vocab_size →
       res !! j
       = Some (Nat.iter (occurrences (encode vocab tokenizer text) j)
                        add_one zero)) ∧
  ((bow_vocab_size < 0)%Z →
   to_bow zero add_one vocab tokenizer text bow_vocab_size = Raise RuntimeError).
Proof.
  split; [apply to_bow_Ok|].
  intros Hneg. unfold to_bow, zeros1.
  by destruct (Z.ltb_spec bow_vocab_size 0); [|lia].
Qed.

Lemma abc_vocab_ids_nonneg :
  ∀ s id, stoi Examples.abc_vocab !! s = Some id → (0 ≤ id)%Z.
Proof.
  intros s id Hs. apply elem_of_list_to_map_2 in Hs.
  repeat (apply elem_of_cons in Hs as [[= -> ->]|Hs]; [lia|]).
  by apply not_elem_of_nil in Hs.
Qed.

Lemma to_bow_counts_ids_witness :
  to_bow 0 S Examples.abc_vocab char_tokenizer "abba b" 3 = Ok [0; 2; 3] ∧
  ∃ res,
    to_bow 0 S Examples.abc_vocab char_tokenizer "abba b" 3 = Ok res ∧
    res !! 2
    = Some (Nat.iter (occurrences (encode Examples.abc_vocab char_tokenizer "abba b") 2)
                     S 0).
Proof.
  split; [reflexivity|].
  destruct (to_bow_counts_ids 0 S Examples.abc_vocab char_tokenizer "abba b" 3)
    as [Hok _].
  destruct (Hok ltac:(lia) abc_vocab_ids_nonneg) as (res & Hres & _ & Hcount).
  exists res. split; [exact Hres|]. apply Hcount. simpl. lia.
Defined.

(** X3: lowering [bow_vocab_size] only cuts the vector: the result for a
    smaller size is the prefix of that length of the result for a larger
    one, the counts of the ids that remain being unchanged. *)
Theorem to_bow_smaller_size_is_prefix {num : Type} (zero : num)
    (add_one : num → num) (vocab : Vocab) (tokenizer : string → list string)
    (text : string) (m n : Z) :
  (0 ≤ m ≤ n)%Z →
  (∀ s id, stoi vocab !! s = Some id → (0 ≤ id)%Z) →
  ∃ res,
    to_bow zero add_one vocab tokenizer text n = Ok res ∧
    to_bow zero add_one vocab tokenizer text m = Ok (take (Z.to_nat m) res).
Proof.
  intros [Hm Hmn] Hids.
  destruct (to_bow_Ok zero add_one vocab tokenizer text n)
    as (rn & Hn & Hlen_n & Hrn); [lia|done|].
  destruct (to_bow_Ok zero add_one vocab tokenizer text m)
    as (rm & Hm' & Hlen_m & Hrm); [lia|done|].
  exists rn. split; [done|]. rewrite Hm'. f_equal.
  apply list_eq. intros j. destruct (decide (j < Z.to_nat m)) as [Hj|Hj].
  - rewrite lookup_take_lt by done. rewrite Hrm, Hrn by lia. done.
  - rewrite lookup_take_ge by lia. apply lookup_ge_None. lia.
Qed.

Lemma to_bow_smaller_size_is_prefix_witness :
  ∃ res,
    to_bow 0 S Examples.abc_vocab char_tokenizer "abba b" 4 = Ok res ∧
    to_bow 0 S Examples.abc_vocab char_tokenizer "abba b" 2 = Ok (take 2 res).
Proof.
  apply (to_bow_smaller_size_is_prefix 0 S Examples.abc_vocab char_tokenizer
           "abba b" 2 4); [lia|exact abc_vocab_ids_nonneg].
Defined.

Section CollateFacts.
Context {A B : Type}.

Lemma map_each_Ok (f : A → result B) (P : A → B → Prop) (l : list A) :
  (∀ x, x ∈ l → ∃ y, f x = Ok y ∧ P x y) →
  ∃ ys, map_each f l = Ok ys ∧ Forall2 P l ys.
Proof.
  induction l as [|x l IH]; intros Hf.
  - exists []. by split.
  - destruct (Hf x) as (y & Hy & Hxy); [apply elem_of_cons; by left|].
    destruct IH as (ys & Hys & Hall).
    { intros x' Hx'. apply Hf, elem_of_cons. by right. }
    exists (y :: ys). cbn [map_each]. rewrite Hy. cbn [mbind result_bind].
    rewrite Hys. split; [done|]. by constructor.
Qed.

Lemma stack_Ok (rows : list (list B)) (n : nat) :
  rows ≠ [] → Forall (λ r, length r = n) rows → stack rows = Ok rows.
Proof.
  destruct rows as [|r rest]; [done|]. intros _ Hall.
  apply Forall_cons in Hall as [Hr Hrest]. cbn [stack].
  assert (Hsame : forallb (λ r', length r' =? length r) rest = true).
  { apply forallb_forall. intros r' Hr'%list_elem_of_In.
    rewrite Forall_forall in Hrest. apply Nat.eqb_eq.
    by rewrite Hr, (Hrest r' Hr'). }
  by rewrite Hsame.
Qed.

End CollateFacts.

Lemma int64_spec (n : Z) : int64 n = true ↔ (- 2 ^ 63 ≤ n < 2 ^ 63)%Z.
Proof. unfold int64. by rewrite andb_true_iff, Z.leb_le, Z.ltb_lt. Qed.

Lemma LongTensor_Ok (l : list Z) :
  Forall (λ n, - 2 ^ 63 ≤ n < 2 ^ 63)%Z l → LongTensor l = Ok l.
Proof.
  intros Hall. unfold LongTensor.
  assert (Hfit : forallb int64 l = true).
  { apply forallb_forall. intros n Hn%list_elem_of_In.
    rewrite Forall_forall in Hall. by apply int64_spec, Hall. }
  by rewrite Hfit.
Qed.

Lemma LongTensor_Raise (l : list Z) (n : Z) :
  n ∈ l → ¬ (- 2 ^ 63 ≤ n < 2 ^ 63)%Z → LongTensor l = Raise RuntimeError.
Proof.
  intros Hn Hbig. unfold LongTensor.
  destruct (forallb int64 l) eqn:Hfit; [|done].
  rewrite forallb_forall in Hfit. destruct Hbig.
  by apply int64_spec, Hfit, list_elem_of_In.
Qed.

(** X4: on a minibatch that is not empty, with labels that fit a 64-bit
    integer once one is subtracted and a vocabulary whose ids are not
    negative, [bowify] never fails: it returns one label per sample, the
    sample's label minus one, and one row per sample, in order, the row
    being [to_bow] of the sample's text with [vocab_size] entries. A label
    that does not fit makes the label tensor overflow, and on an empty
    minibatch [torch.stack] has nothing to stack: both fail. *)
Theorem bowify_rows_and_labels {num : Type} (zero : num) (add_one : num → num)
    (vocab : Vocab) (tokenizer : string → list string) (b : list (Z * string)) :
  (b ≠ [] →
   Forall (λ t, - 2 ^ 63 ≤ t.1 - 1 < 2 ^ 63)%Z b →
   (∀ s id, stoi vocab !! s = Some id → (0 ≤ id)%Z) →
   ∃ features,
     bowify zero add_one vocab tokenizer b
     = Ok ((λ t, t.1 - 1)%Z <$> b, features) ∧
     Forall2 (λ t row,
                to_bow zero add_one vocab tokenizer t.2 (vocab_size vocab)
                = Ok row ∧
                length row = length (itos vocab)) b features) ∧
  ((∃ t, t ∈ b ∧ ¬ (- 2 ^ 63 ≤ t.1 - 1 < 2 ^ 63)%Z) →
   bowify zero add_one vocab tokenizer b = Raise RuntimeError) ∧
  bowify zero add_one vocab tokenizer [] = Raise RuntimeError.
Proof.
  split; [|split; [|reflexivity]].
  - intros Hne Hlabels Hids. unfold bowify.
    rewrite LongTensor_Ok by (by apply Forall_fmap).
    cbn [mbind result_bind].
    destruct (map_each_Ok
                (λ t : Z * string,
                   to_bow zero add_one vocab tokenizer t.2 (vocab_size vocab))
                (λ t row,
                   to_bow zero add_one vocab tokenizer t.2 (vocab_size vocab)
                   = Ok row ∧ length row = length (itos vocab)) b)
      as (rows & Hrows & Hall).
    { intros t _.
      destruct (to_bow_Ok zero add_one vocab tokenizer t.2 (vocab_size vocab))
        as (row & Hrow & Hlen & _); [unfold vocab_size, len; lia|done|].
      exists row. split; [done|]. split; [done|].
      rewrite Hlen. unfold vocab_size, len. lia. }
    rewrite Hrows. cbn [mbind result_bind].
    rewrite (stack_Ok rows (length (itos vocab))).
    + cbn [mbind result_bind]. by exists rows.
    + intros ->. apply Forall2_nil_inv_r in Hall. done.
    + apply Forall_forall. intros row Hrow.
      apply list_elem_of_lookup_1 in Hrow as [k Hk].
      destruct (Forall2_lookup_r _ _ _ _ _ Hall Hk) as (t & _ & _ & Hlen). done.
  - intros (t & Ht & Hbig). unfold bowify.
    rewrite (LongTensor_Raise _ (t.1 - 1)%Z); [done| |done].
    by apply (list_elem_of_fmap_2 (λ t : Z * string, (t.1 - 1)%Z)).
Qed.

Lemma tiny_corpus_labels_fit :
  Forall (λ t : Z * string, - 2 ^ 63 ≤ t.1 - 1 < 2 ^ 63)%Z Examples.tiny_corpus.
Proof. repeat constructor; simpl; lia. Qed.

Lemma bowify_rows_and_labels_witness :
  bowify 0 S Examples.abc_vocab char_tokenizer Examples.tiny_corpus
  = Ok ([2; 0]%Z, [[0; 2; 2; 0]; [1; 1; 1; 0]]) ∧
  (∃ features,
     bowify 0 S Examples.abc_vocab char_tokenizer Examples.tiny_corpus
     = Ok ((λ t, t.1 - 1)%Z <$> Examples.tiny_corpus, features)) ∧
  bowify 0 S Examples.abc_vocab char_tokenizer [((2 ^ 63 + 1)%Z, "a")]
  = Raise RuntimeError.
Proof.
  split; [reflexivity|].
  destruct (bowify_rows_and_labels 0 S Examples.abc_vocab char_tokenizer
              Examples.tiny_corpus) as (Hok & _ & _).
  destruct (bowify_rows_and_labels 0 S Examples.abc_vocab char_tokenizer
              [((2 ^ 63 + 1)%Z, "a")]) as (_ & Hbig & _).
  split.
  - destruct (Hok ltac:(discriminate) tiny_corpus_labels_fit
                abc_vocab_ids_nonneg) as (features & Hb & _).
    exists features. exact Hb.
  - apply Hbig. exists ((2 ^ 63 + 1)%Z, "a").
    split; [apply list_elem_of_singleton; reflexivity|]. simpl. lia.
Defined.

(** ** Padded minibatches *)








(** ** Windows and the training loop *)

(** X6: in the result of [get_batch] the target of a window is the input
    of the next window: [outs[k] = ins[k+1]] whenever window [k+1]
    exists. *)
Theorem get_batch_target_is_next_input (vocab : Vocab) (s : string)
    (nchars : Z) (ins outs : list (list Z)) (k : nat) (row : list Z) :
  get_batch vocab s nchars = Ok (ins, outs) →
  ins !! S k = Some row →
  outs !! k = Some row.
Proof.
  intros Hb Hrow.
  destruct (decide (0 ≤ nchars ≤ str_len s)%Z) as [[Hw HL]|Hbad];
    [|rewrite get_batch_Raise in Hb by lia; discriminate].
  rewrite get_batch_Ok in Hb by done. injection Hb as <- <-.
  apply list_lookup_fmap_Some in Hrow as (i & -> & Hi).
  assert (Hlt : (Z.of_nat (S k) < str_len s - nchars)%Z).
  { apply lookup_lt_Some in Hi. rewrite range_length in Hi. lia. }
  rewrite range_lookup in Hi by done. injection Hi as <-.
  rewrite list_lookup_fmap, range_lookup by lia. simpl.
  do 3 f_equal; lia.
Qed.

Lemma get_batch_target_is_next_input_witness :
  get_batch Examples.abc_vocab "abcd" 2 = Ok ([[1; 2]; [2; 0]], [[2; 0]; [0; 0]])%Z ∧
  [[2; 0]; [0; 0]]%Z !! 0 = Some [2; 0]%Z.
Proof.
  split; [reflexivity|].
  apply (get_batch_target_is_next_input Examples.abc_vocab "abcd" 2
           [[1; 2]; [2; 0]]%Z [[2; 0]; [0; 0]]%Z 0 [2; 0]%Z); reflexivity.
Defined.

Section TrainingFacts.
Context {model : Type}.
Variable vocab : Vocab.
Variable step : Z → model → list (list Z) * list (list Z) → result model.
Variable nchars : Z.

(** The windows of a text, as slices of its encoding. *)
Definition windows (s : string) : list (list Z) * list (list Z) :=
  ((λ k, getslice (enc vocab s) k (k + nchars)) <$> range (str_len s - nchars),
   (λ k, getslice (enc vocab s) (k + 1) (k + nchars + 1))
     <$> range (str_len s - nchars)).

(** The numbered texts the loop trains on: those with at least ten
    windows, in order; all of them when the counter does not start
    positive, and otherwise the first [samples_to_train - 1]. *)
Definition trained_on (items : list (Z * (Z * string))) (samples_to_train : Z)
  : list (Z * (Z * string)) :=
  let long := filter (λ ix, (10 ≤ str_len ix.2.2 - nchars)%Z) items in
  if (1 <=? samples_to_train)%Z then take (Z.to_nat (samples_to_train - 1)) long
  else long.

Lemma get_batch_windows_eq (s : string) :
  (0 ≤ nchars)%Z → (nchars ≤ str_len s)%Z →
  get_batch vocab s nchars = Ok (windows s).
Proof.
  intros Hw HL. rewrite get_batch_Ok by done. unfold windows. do 2 f_equal.
  - apply list_fmap_ext. intros _ k _. apply enc_getslice.
  - apply list_fmap_ext. intros _ k _. apply enc_getslice.
Qed.

Lemma train_from_trained_on (items : list (Z * (Z * string))) :
  (0 ≤ nchars)%Z →
  ∀ (samples_to_train : Z) (st : model),
    train_from vocab step nchars items samples_to_train st
    = for_each (λ st ix, step ix.1 st (windows ix.2.2)) st
               (trained_on items samples_to_train).
Proof.
  intros Hw. induction items as [|[i x] items IH]; intros n st.
  - unfold trained_on. rewrite filter_nil.
    by destruct (1 <=? n)%Z; rewrite ?take_nil.
  - cbn [train_from]. unfold trained_on. cbn [snd].
    destruct (Z.ltb_spec (str_len x.2 - nchars) 10) as [Hshort|Hlong].
    + rewrite IH. unfold trained_on.
      by rewrite filter_cons_False by (simpl; lia).
    + rewrite filter_cons_True by (simpl; lia).
      destruct (Z.eqb_spec (n - 1) 0) as [Hlast|Hmore].
      * destruct (Z.leb_spec 1 n); [|lia].
        by replace (Z.to_nat (n - 1)) with 0 by lia.
      * rewrite get_batch_windows_eq by lia. cbn [mbind result_bind].
        destruct (Z.leb_spec 1 n) as [Hpos|Hneg].
        -- replace (Z.to_nat (n - 1)) with (S (Z.to_nat (n - 1 - 1))) by lia.
           cbn [take for_each fst snd].
           destruct (step i st (windows x.2)) as [st'|e]; [|done].
           cbn [mbind result_bind]. rewrite IH. unfold trained_on.
           by destruct (Z.leb_spec 1 (n - 1)); [|lia].
        -- cbn [for_each fst snd].
           destruct (step i st (windows x.2)) as [st'|e]; [|done].
           cbn [mbind result_bind]. rewrite IH. unfold trained_on.
           by destruct (Z.leb_spec 1 (n - 1)); [lia|].
Qed.

End TrainingFacts.

(** X7: with a window size that is not negative, the training loop calls
    [get_batch] only on texts for which it succeeds, each giving at least
    ten windows: the loop is the fold of the training step over the texts
    of at least [nchars + 10] characters, in dataset order. A positive
    [samples_to_train] lets the first [samples_to_train - 1] of them
    through (the counter is decremented and tested before the text is
    used); a counter that does not start positive never reaches 0 and
    limits nothing. *)
Theorem train_uses_long_texts_only {model : Type} (vocab : Vocab)
    (step : Z → model → list (list Z) * list (list Z) → result model)
    (nchars : Z) (train_dataset : list (Z * string))
    (samples_to_train : Z) (st : model) :
  (0 ≤ nchars)%Z →
  train vocab step nchars train_dataset samples_to_train st
  = for_each (λ st ix, step ix.1 st (windows vocab nchars ix.2.2)) st
             (trained_on nchars (enumerate train_dataset) samples_to_train) ∧
  Forall (λ ix, get_batch vocab ix.2.2 nchars = Ok (windows vocab nchars ix.2.2) ∧
                (10 ≤ len (windows vocab nchars ix.2.2).1)%Z)
         (trained_on nchars (enumerate train_dataset) samples_to_train) ∧
  ((1 ≤ samples_to_train)%Z →
   (len (trained_on nchars (enumerate train_dataset) samples_to_train)
    ≤ samples_to_train - 1)%Z).
Proof.
  intros Hw. split; [by apply train_from_trained_on|]. split.
  - apply Forall_forall. intros ix Hix.
    assert (Hlong : (10 ≤ str_len ix.2.2 - nchars)%Z).
    { unfold trained_on in Hix.
      destruct (1 <=? samples_to_train)%Z;
        [apply elem_of_take in Hix as (k & Hk & _);
         apply list_elem_of_lookup_2 in Hk as Hix|];
        by apply list_elem_of_filter in Hix as [? _]. }
    split; [apply get_batch_windows_eq; lia|].
    unfold windows, len. cbn [fst]. rewrite length_fmap, range_length. lia.
  - intros Hpos. unfold trained_on, len.
    destruct (Z.leb_spec 1 samples_to_train); [|lia].
    rewrite length_take. lia.
Qed.

Lemma train_uses_long_texts_only_witness :
  train Examples.abc_vocab (λ i (st : list Z) b, Ok (st ++ [i])) 1
        [(1, "short"); (2, "twelve chars"); (3, "thirteen char"); (4, "fourteen chars")]%Z
        3 []
  = Ok [1; 2]%Z ∧
  len (trained_on 1
         (enumerate [(1, "short"); (2, "twelve chars"); (3, "thirteen char");
                     (4, "fourteen chars")]%Z) 3) = 2%Z.
Proof.
  destruct (train_uses_long_texts_only Examples.abc_vocab
              (λ i (st : list Z) b, Ok (st ++ [i])) 1
              [(1, "short"); (2, "twelve chars"); (3, "thirteen char");
               (4, "fourteen chars")]%Z 3 []) as (Htrain & _ & _); [lia|].
  split; [|reflexivity]. rewrite Htrain. reflexivity.
Defined.

(** ** More on the generators *)

Lemma for_each_app {St A : Type} (body : St → A → result St) (st : St)
    (xs ys : list A) :
  for_each body st (xs ++ ys)
  = (st' ← for_each body st xs; for_each body st' ys).
Proof.
  revert st. induction xs as [|x xs IH]; intros st; [done|].
  cbn [app for_each]. destruct (body st x) as [st1|e]; [|done].
  cbn [mbind result_bind]. apply IH.
Qed.

Lemma range_succ (n : Z) : (0 ≤ n)%Z → range (n + 1) = range n ++ [n].
Proof.
  intros Hn. unfold range. by rewrite seqZ_app by lia.
Qed.

Section GeneratorShape.
Context {score state rng : Type}.
Variable score_ltb : score → score → bool.
Variable net : list Z → option state → result (list (list score) * state).
Variable vocab : Vocab.
Variable fdiv : score → score → score.
Variable fexp : score → score.
Variable multinomial : list score → rng → result (Z * rng).

Lemma getitem_elem_of {A : Type} (l : list A) (i : Z) (a : A) :
  getitem l i = Ok a → a ∈ l.
Proof.
  intros [[_ Ha]|[_ Ha]]%getitem_Ok; by eapply list_elem_of_lookup_2.
Qed.

(** An iteration of either loop appends one symbol of [itos]. *)
Lemma generate_body_appends (st st' : gen_state) (i : Z) :
  generate_body score_ltb net vocab st i = Ok st' →
  ∃ c, c ∈ itos vocab ∧ st'.1.1 = st.1.1 ++ [c].
Proof.
  destruct st as [[chars out] s]. unfold generate_body.
  destruct (getitem out (-1)) as [logits|]; [|done]. cbn [mbind result_bind].
  destruct (argmax score_ltb logits) as [nc|]; [|done]. cbn [mbind result_bind].
  destruct (getitem (itos vocab) nc) as [c|] eqn:Hc; [|done].
  cbn [mbind result_bind].
  destruct (net [nc] (Some s)) as [r|]; [|done]. cbn [mbind result_bind].
  intros [= <-]. exists c. split; [by eapply getitem_elem_of|done].
Qed.

Lemma generate_soft_body_appends (temperature : score)
    (st st' : gen_state * rng) (i : Z) :
  generate_soft_body net vocab fdiv fexp multinomial temperature st i = Ok st' →
  ∃ c, c ∈ itos vocab ∧ st'.1.1.1 = st.1.1.1 ++ [c].
Proof.
  destruct st as [[[chars out] s] g]. unfold generate_soft_body.
  destruct (getitem out (-1)) as [logits|]; [|done]. cbn [mbind result_bind].
  destruct (multinomial _ g) as [d|]; [|done]. cbn [mbind result_bind].
  destruct (getitem (itos vocab) d.1) as [c|] eqn:Hc; [|done].
  cbn [mbind result_bind].
  destruct (net [d.1] (Some s)) as [r|]; [|done]. cbn [mbind result_bind].
  intros [= <-]. exists c. split; [by eapply getitem_elem_of|done].
Qed.

Lemma generate_soft_loop_appends (temperature : score) (xs : list Z) :
  ∀ st st' : gen_state * rng,
    for_each (generate_soft_body net vocab fdiv fexp multinomial temperature)
             st xs = Ok st' →
    ∃ cs, length cs = length xs ∧ Forall (λ c, c ∈ itos vocab) cs ∧
          st'.1.1.1 = st.1.1.1 ++ cs.
Proof.
  induction xs as [|i xs IH]; intros st st'.
  - simpl. intros [= <-]. exists []. by rewrite app_nil_r.
  - cbn [for_each].
    destruct (generate_soft_body _ _ _ _ _ _ st i) as [st1|] eqn:Hbody; [|done].
    cbn [mbind result_bind]. intros Hrest.
    apply generate_soft_body_appends in Hbody as (c & Hc & Hst1).
    destruct (IH _ _ Hrest) as (cs & Hlen & Hall & Hst').
    exists (c :: cs). split; [simpl; lia|]. split; [by constructor|].
    by rewrite Hst', Hst1, <- app_assoc.
Qed.

End GeneratorShape.

(** X8: whenever [generate_soft] returns, the text returned is the seed
    followed by exactly [size] symbols (none for a negative [size]), each
    of them an entry of [itos]: whatever the temperature, the sampler and
    the model do, the seed is never altered and nothing outside the
    vocabulary is emitted. *)
Theorem generate_soft_keeps_seed {score state rng : Type}
    (net : list Z → option state → result (list (list score) * state))
    (vocab : Vocab) (fdiv : score → score → score) (fexp : score → score)
    (multinomial : list score → rng → result (Z * rng))
    (size : Z) (start : string) (temperature : score) (g g' : rng)
    (r : string) :
  generate_soft net vocab fdiv fexp multinomial size start temperature g
  = Ok (r, g') →
  ∃ cs, length cs = Z.to_nat size ∧ Forall (λ c, c ∈ itos vocab) cs ∧
        r = start +:+ str_join cs.
Proof.
  unfold generate_soft. rewrite view_enc. cbn [mbind result_bind].
  destruct (net (enc vocab start) None) as [p|]; [|done].
  cbn [mbind result_bind].
  destruct (for_each _ _ _) as [st'|] eqn:Hloop; [|done].
  cbn [mbind result_bind]. intros [= <- <-].
  apply generate_soft_loop_appends in Hloop as (cs & Hlen & Hall & Hst').
  rewrite range_length in Hlen. cbn [fst] in Hst'.
  exists cs. split; [done|]. split; [done|].
  transitivity (str_join (str_list start ++ cs)); [f_equal; exact Hst'|].
  by rewrite str_join_app, str_join_list.
Qed.

Lemma generate_soft_keeps_seed_witness :
  generate_soft Examples.b_net Examples.abc_vocab Z.div Z.succ
    Examples.first_sampler 2 "ab" 1%Z tt = Ok ("ab<unk><unk>", tt) ∧
  ∃ cs, length cs = 2 ∧ "ab<unk><unk>" = "ab" +:+ str_join cs.
Proof.
  split; [reflexivity|].
  destruct (generate_soft_keeps_seed Examples.b_net Examples.abc_vocab Z.div
              Z.succ Examples.first_sampler 2 "ab" 1%Z tt tt "ab<unk><unk>")
    as (cs & Hlen & _ & Hr); [reflexivity|].
  exists cs. split; [exact Hlen|exact Hr].
Defined.

(** X9: [generate] grows its text one symbol at a time. For a size that
    is not positive it returns the seed itself; asking for one symbol
    more returns the text of the shorter run followed by a single entry
    of [itos], so every shorter run is a prefix of the longer ones. *)
Theorem generate_extends_by_one_symbol {score state : Type}
    (score_ltb : score → score → bool)
    (net : list Z → option state → result (list (list score) * state))
    (vocab : Vocab) (size : Z) (start r : string) :
  ((size ≤ 0)%Z → generate score_ltb net vocab size start = Ok r → r = start) ∧
  ((0 ≤ size)%Z → generate score_ltb net vocab (size + 1) start = Ok r →
   ∃ r0 c, generate score_ltb net vocab size start = Ok r0 ∧
           c ∈ itos vocab ∧ r = r0 +:+ c).
Proof.
  unfold generate. split.
  - intros Hsize. rewrite range_nonpos by done.
    destruct (view _) as [x|]; [|done]. cbn [mbind result_bind].
    destruct (net x None) as [p|]; [|done].
    cbn [mbind result_bind for_each fst]. intros [= <-]. apply str_join_list.
  - intros Hsize. rewrite range_succ by done.
    destruct (view _) as [x|]; [|done]. cbn [mbind result_bind].
    destruct (net x None) as [p|]; [|done]. cbn [mbind result_bind].
    rewrite for_each_app.
    destruct (for_each _ _ (range size)) as [st|]; [|done].
    cbn [mbind result_bind for_each].
    destruct (generate_body score_ltb net vocab st size) as [st'|] eqn:Hbody;
      [|done].
    cbn [mbind result_bind]. intros [= <-].
    apply generate_body_appends in Hbody as (c & Hc & Hst').
    exists (str_join st.1.1), c. split; [done|]. split; [done|].
    transitivity (str_join (st.1.1 ++ [c])); [f_equal; exact Hst'|].
    rewrite str_join_app. f_equal. unfold str_join. simpl.
    clear. induction c as [|a c IH]; [done|]. rewrite append_String. by f_equal.
Qed.

Lemma generate_extends_by_one_symbol_witness :
  ∃ r0 c,
    generate Z.ltb Examples.b_net Examples.abc_vocab 2 "a" = Ok r0 ∧
    c ∈ itos Examples.abc_vocab ∧ "abbb" = r0 +:+ c.
Proof.
  destruct (generate_extends_by_one_symbol Z.ltb Examples.b_net
              Examples.abc_vocab 2 "a" "abbb") as [_ Hnext].
  apply Hnext; [lia|reflexivity].
Defined.
